(** * Crossword generator (xword_gen.py): shallow embedding and properties

    The Python module [xword_gen.py] is embedded function by function.
    - Words and grid rows are lists of characters; the grid is a list of rows.
    - Python integers used as indices are [Z]; loop counters drawn from
      [range] are [nat] and are injected into [Z] where the code does
      arithmetic on them.
    - Every subscript on the grid goes through [grid_get]/[grid_set], which
      answer [Err OutOfBounds] for an index outside [0, len): this covers both
      Python's [IndexError] and the silent wrap-around of a negative index.
    - Exceptions are values of the [result] monad.
    - The two dictionaries ([placements], [candidate_grids]) are [gmap]s.
    - The pseudo-random source is an oracle: one draw (orientation, integer)
      per attempt. *)

From Stdlib Require Import ZArith Ascii Lia.
From stdpp Require Import strings gmap list fin_maps sorting.

(** ** Exceptions and the result monad *)

Inductive error : Set :=
| IndexError    (* subscript of a word or of the word list out of range *)
| ValueError    (* [max] of an empty sequence, [randint] on an empty range *)
| KeyError      (* dictionary subscript on a missing key *)
| OutOfBounds.  (* grid subscript outside [0, size) *)

Inductive result (A : Type) : Type :=
| Ok (a : A)
| Err (e : error).
Arguments Ok {A} a.
Arguments Err {A} e.

#[global] Instance result_ret : MRet result := λ A a, Ok a.
#[global] Instance result_bind : MBind result := λ A B f m,
  match m with
  | Ok a => f a
  | Err e => Err e
  end.

(** [for x in xs: s = body(x, s)], stopping at the first exception. *)
Fixpoint for_each {A S : Type} (xs : list A) (body : A → S → result S) (s : S)
  : result S :=
  match xs with
  | [] => Ok s
  | x :: xs' => s' ← body x s; for_each xs' body s'
  end.

(** ** Data model *)

Abbreviation word := (list ascii).
Abbreviation grid := (list (list ascii)).

Definition blank : ascii := " "%char.

(** The strings ['H'] and ['V']. *)
Inductive direction : Set := Horiz | Vert.

#[global] Instance direction_eq_dec : EqDecision direction.
Proof. solve_decision. Defined.

#[global] Instance ascii_eq_dec : EqDecision ascii := Ascii.ascii_dec.

(** A placement map entry: [[word, (row, col), direction]]. *)
Abbreviation placement := (word * (Z * Z) * direction)%type.

(** [seq[i]] for a loop counter [i]. *)
Definition py_get {A : Type} (l : list A) (i : nat) : result A :=
  match l !! i with
  | Some x => Ok x
  | None => Err IndexError
  end.

(** Checked subscript of one grid axis by a Python integer. *)
Definition axis_get {A : Type} (l : list A) (i : Z) : result A :=
  if bool_decide (0 ≤ i)%Z then
    match l !! Z.to_nat i with
    | Some x => Ok x
    | None => Err OutOfBounds
    end
  else Err OutOfBounds.

(** [grid[row][col]] *)
Definition grid_get (g : grid) (row col : Z) : result ascii :=
  r ← axis_get g row; axis_get r col.

(** [grid[row][col] = ch] *)
Definition grid_set (g : grid) (row col : Z) (ch : ascii) : result grid :=
  r ← axis_get g row;
  _ ← axis_get r col;
  Ok (<[Z.to_nat row := <[Z.to_nat col := ch]> r]> g).

(** ** init_grid *)

Definition init_grid (size : nat) : grid :=
  replicate size (replicate size blank).

(** ** is_adjacent_word *)

Fixpoint max_by_len_from (best : word) (ws : list word) : word :=
  match ws with
  | [] => best
  | w :: ws' =>
      max_by_len_from (if length best <? length w then w else best) ws'
  end.

(** [max(wordlist_sorted, key=len)] *)
Definition py_max_by_len (wl : list word) : result word :=
  match wl with
  | [] => Err ValueError
  | w :: ws => Ok (max_by_len_from w ws)
  end.

(** The four bounded scans of [is_adjacent_word]; [idxs] is [range(1, max_len)]
    and the accumulated string is returned at a [break]. *)
Fixpoint look_up (g : grid) (row col : Z) (idxs : list nat) (w : word)
  : result word :=
  match idxs with
  | [] => Ok w
  | i :: idxs' =>
      if bool_decide (row - Z.of_nat i >= 0)%Z then
        c ← grid_get g (row - Z.of_nat i) col;
        if bool_decide (c = blank) then Ok w
        else look_up g row col idxs' (c :: w)
      else Ok w
  end.

Fixpoint look_down (g : grid) (row col : Z) (idxs : list nat) (w : word)
  : result word :=
  match idxs with
  | [] => Ok w
  | i :: idxs' =>
      if bool_decide (row + Z.of_nat i < Z.of_nat (length g))%Z then
        c ← grid_get g (row + Z.of_nat i) col;
        if bool_decide (c = blank)
           || bool_decide (row + Z.of_nat i = Z.of_nat (length g))%Z
        then Ok w
        else look_down g row col idxs' (w ++ [c])
      else Ok w
  end.

Fixpoint look_left (g : grid) (row col : Z) (idxs : list nat) (w : word)
  : result word :=
  match idxs with
  | [] => Ok w
  | i :: idxs' =>
      if bool_decide (col - Z.of_nat i >= 0)%Z then
        c ← grid_get g row (col - Z.of_nat i);
        if bool_decide (c = blank) then Ok w
        else look_left g row col idxs' (c :: w)
      else Ok w
  end.

Fixpoint look_right (g : grid) (row col : Z) (idxs : list nat) (w : word)
  : result word :=
  match idxs with
  | [] => Ok w
  | i :: idxs' =>
      if bool_decide (col + Z.of_nat i < Z.of_nat (length g))%Z then
        c ← grid_get g row (col + Z.of_nat i);
        if bool_decide (c = blank)
           || bool_decide (col + Z.of_nat i = Z.of_nat (length g))%Z
        then Ok w
        else look_right g row col idxs' (w ++ [c])
      else Ok w
  end.

Definition is_adjacent_word (g : grid) (row col : Z) (d : direction)
    (wordlist_sorted : list word) : result bool :=
  longest ← py_max_by_len wordlist_sorted;
  let max_len := length longest in
  match d with
  | Vert =>
      c ← grid_get g row col;
      w ← look_up g row col (seq 1 (max_len - 1)) [c];
      w ← look_down g row col (seq 1 (max_len - 1)) w;
      Ok (bool_decide (w ∈ wordlist_sorted))
  | Horiz =>
      c ← grid_get g row col;
      w ← look_left g row col (seq 1 (max_len - 1)) [c];
      w ← look_right g row col (seq 1 (max_len - 1)) w;
      Ok (bool_decide (w ∈ wordlist_sorted))
  end.

(** ** is_valid_placement

    The result [None] is Python's [False]; [Some n] is the pair [(True, n)]. *)

(** [if guard and grid[r][c] != ' ' and i != letter_idx:
       if is_adjacent_word(grid, r, c, d, wl): num_overlaps += 1
       else: return False] *)
Definition neighbour_check (g : grid) (guard : bool) (r c : Z) (i : nat)
    (letter_idx : Z) (d : direction) (wl : list word) (num : Z)
  : result (option Z) :=
  if guard then
    a ← grid_get g r c;
    if bool_decide (a ≠ blank) && bool_decide (Z.of_nat i ≠ letter_idx) then
      b ← is_adjacent_word g r c d wl;
      if (b : bool) then Ok (Some (num + 1)%Z) else Ok None
    else Ok (Some num)
  else Ok (Some num).

Fixpoint letters_H (g : grid) (w : word) (letter_idx row col : Z)
    (wl : list word) (idxs : list nat) (num : Z) : result (option Z) :=
  match idxs with
  | [] => Ok (Some num)
  | i :: idxs' =>
      let size := Z.of_nat (length g) in
      let cc := (col - letter_idx + Z.of_nat i)%Z in
      wi ← py_get w i;
      c ← grid_get g row cc;
      if bool_decide (c ≠ blank ∧ c ≠ wi) then Ok None else
      let num := if bool_decide (c = wi) then (num + 1)%Z else num in
      above ← neighbour_check g (bool_decide (row > 0)%Z)
                (row - 1) cc i letter_idx Vert wl num;
      match above with
      | None => Ok None
      | Some num =>
          below ← neighbour_check g (bool_decide (row < size - 1)%Z)
                    (row + 1) cc i letter_idx Vert wl num;
          match below with
          | None => Ok None
          | Some num => letters_H g w letter_idx row col wl idxs' num
          end
      end
  end.

Fixpoint letters_V (g : grid) (w : word) (letter_idx row col : Z)
    (wl : list word) (idxs : list nat) (num : Z) : result (option Z) :=
  match idxs with
  | [] => Ok (Some num)
  | i :: idxs' =>
      let size := Z.of_nat (length g) in
      let rr := (row - letter_idx + Z.of_nat i)%Z in
      wi ← py_get w i;
      c ← grid_get g rr col;
      if bool_decide (c ≠ blank ∧ c ≠ wi) then Ok None else
      let num := if bool_decide (c = wi) then (num + 1)%Z else num in
      left ← neighbour_check g (bool_decide (col > 0)%Z)
               rr (col - 1) i letter_idx Horiz wl num;
      match left with
      | None => Ok None
      | Some num =>
          right ← neighbour_check g (bool_decide (col < size - 1)%Z)
                    rr (col + 1) i letter_idx Horiz wl num;
          match right with
          | None => Ok None
          | Some num => letters_V g w letter_idx row col wl idxs' num
          end
      end
  end.

(** [if guard and grid[r][c] != ' ': return False] *)
Definition border_occupied (g : grid) (guard : bool) (r c : Z) : result bool :=
  if guard then a ← grid_get g r c; Ok (bool_decide (a ≠ blank))
  else Ok false.

Definition is_valid_placement (g : grid) (w : word) (letter_idx row col : Z)
    (d : direction) (wl : list word) : result (option Z) :=
  let size := Z.of_nat (length g) in
  let len := Z.of_nat (length w) in
  match d with
  | Horiz =>
      if bool_decide (col - letter_idx < 0 ∨ col - letter_idx + len > size)%Z
      then Ok None else
      b ← border_occupied g (bool_decide (col - letter_idx > 0)%Z)
            row (col - letter_idx - 1);
      if (b : bool) then Ok None else
      b ← border_occupied g (bool_decide (col - letter_idx + len < size)%Z)
            row (col - letter_idx + len);
      if (b : bool) then Ok None else
      letters_H g w letter_idx row col wl (seq 0 (length w)) 0
  | Vert =>
      if bool_decide (row - letter_idx < 0 ∨ row - letter_idx + len > size)%Z
      then Ok None else
      b ← border_occupied g (bool_decide (row - letter_idx > 0)%Z)
            (row - letter_idx - 1) col;
      if (b : bool) then Ok None else
      b ← border_occupied g (bool_decide (row - letter_idx + len < size)%Z)
            (row - letter_idx + len) col;
      if (b : bool) then Ok None else
      letters_V g w letter_idx row col wl (seq 0 (length w)) 0
  end.

(** ** place_word *)

Fixpoint write_H (g : grid) (w : word) (letter_idx row col : Z)
    (idxs : list nat) : result grid :=
  match idxs with
  | [] => Ok g
  | i :: idxs' =>
      wi ← py_get w i;
      g' ← grid_set g row (col - letter_idx + Z.of_nat i) wi;
      write_H g' w letter_idx row col idxs'
  end.

Fixpoint write_V (g : grid) (w : word) (letter_idx row col : Z)
    (idxs : list nat) : result grid :=
  match idxs with
  | [] => Ok g
  | i :: idxs' =>
      wi ← py_get w i;
      g' ← grid_set g (row - letter_idx + Z.of_nat i) col wi;
      write_V g' w letter_idx row col idxs'
  end.

Definition place_word (g : grid) (w : word) (letter_idx row col : Z)
    (d : direction) (placements : gmap nat placement) (wordnum : nat)
  : result (grid * gmap nat placement) :=
  match d with
  | Horiz =>
      let placements := <[wordnum := (w, (row, col - letter_idx)%Z, Horiz)]> placements in
      g' ← write_H g w letter_idx row col (seq 0 (length w));
      Ok (g', placements)
  | Vert =>
      let placements := <[wordnum := (w, (row - letter_idx, col)%Z, Vert)]> placements in
      g' ← write_V g w letter_idx row col (seq 0 (length w));
      Ok (g', placements)
  end.

(** ** place_first

    [draw] is what the pseudo-random source answers in this call:
    [random.choice(['V', 'H'])] is [draw.1], and [random.randint(0, size - 1)]
    is [draw.2 mod size], any value of the range (it raises on the empty
    range). *)

Definition randint0 (size : nat) (k : nat) : result Z :=
  if bool_decide (size = 0) then Err ValueError
  else Ok (Z.of_nat (k mod size)).

Definition place_first (g : grid) (first : word)
    (placements : gmap nat placement) (draw : direction * nat)
  : result (grid * gmap nat placement) :=
  let size := length g in
  match draw.1 with
  | Horiz =>
      row ← randint0 size draw.2;
      place_word g first 0 row 0 Horiz placements 1
  | Vert =>
      col ← randint0 size draw.2;
      place_word g first 0 0 col Vert placements 1
  end.

(** ** find_best_placement

    A position is the tuple [(row, col, i, direction)]; the loop state is
    [(best_score, best_position)], with [None] for Python's [None]. The
    result [None] stands for the tuple [(False, False, False, False)]. *)

Abbreviation position := (Z * Z * Z * direction)%type.

(** [x_valid = is_valid_placement(grid, word, i, row, col, d, wl)
     if x_valid:
         if x_valid[1] >= best_score: ... ] *)
Definition try_direction (g : grid) (w : word) (i row col : Z) (d : direction)
    (wl : list word) (best : Z * option position)
  : result (Z * option position) :=
  v ← is_valid_placement g w i row col d wl;
  match v with
  | Some score =>
      if bool_decide (score >= best.1)%Z then Ok (score, Some (row, col, i, d))
      else Ok best
  | None => Ok best
  end.

Definition scan_cell (g : grid) (w : word) (wl : list word) (i : nat)
    (letter : ascii) (row col : nat) (best : Z * option position)
  : result (Z * option position) :=
  c ← grid_get g (Z.of_nat row) (Z.of_nat col);
  if bool_decide (letter = c) then
    best ← try_direction g w (Z.of_nat i) (Z.of_nat row) (Z.of_nat col) Horiz wl best;
    try_direction g w (Z.of_nat i) (Z.of_nat row) (Z.of_nat col) Vert wl best
  else Ok best.

Definition scan_letter (g : grid) (w : word) (wl : list word) (i : nat)
    (best : Z * option position) : result (Z * option position) :=
  letter ← py_get w i;
  let size := length g in
  for_each (seq 0 size) (λ row best,
    for_each (seq 0 size) (λ col best,
      scan_cell g w wl i letter row col best) best) best.

Definition find_best_placement (w : word) (g : grid) (wl : list word)
  : result (option position) :=
  best ← for_each (seq 0 (length w)) (scan_letter g w wl) ((-1)%Z, None);
  Ok best.2.

(** ** build_crossword

    The test [if row or col or letter_idx or direction] holds for every
    position found (its direction is a non-empty string) and fails for the
    all-[False] tuple. *)

Definition build_body (wl : list word) (words : list word) (i : nat)
    (st : grid * gmap nat placement) : result (grid * gmap nat placement) :=
  w ← py_get words i;
  p ← find_best_placement w st.1 wl;
  match p with
  | Some (row, col, letter_idx, d) =>
      place_word st.1 w letter_idx row col d st.2 (i + 2)
  | None => Ok st
  end.

(** The state after [place_first] and the first [k] rounds of the loop. *)
Definition build_prefix (k : nat) (g : grid) (wl : list word)
    (draw : direction * nat) : result (grid * gmap nat placement) :=
  first ← py_get wl 0;
  st ← place_first g first ∅ draw;
  for_each (seq 0 k) (build_body wl (drop 1 wl)) st.

Definition build_crossword (g : grid) (wl : list word)
    (draw : direction * nat) : result (grid * gmap nat placement) :=
  build_prefix (length (drop 1 wl)) g wl draw.

(** ** count_blanks *)

Definition count_blanks (g : grid) : result nat :=
  for_each (seq 0 (length g)) (λ row count,
    for_each (seq 0 (length g)) (λ col count,
      c ← grid_get g (Z.of_nat row) (Z.of_nat col);
      Ok (if bool_decide (c = blank) then count + 1 else count)) count) 0.

(** ** generate *)

(** [sorted(wordlist, key=len, reverse=True)]: a stable sort, words of equal
    length keep their order. *)
Fixpoint insert_by_len (w : word) (l : list word) : list word :=
  match l with
  | [] => [w]
  | y :: l' =>
      if length y <=? length w then w :: l else y :: insert_by_len w l'
  end.

Definition sorted_by_len (wl : list word) : list word :=
  foldr insert_by_len [] wl.

Abbreviation candidate := (grid * gmap nat placement)%type.

Record driver : Type := Driver {
  grid_size : nat;
  candidate_grids : gmap nat candidate
}.

(** One round of the attempt loop of [generate]. *)
Definition attempt (wls : list word) (rnd : nat → direction * nat) (i : nat)
    (st : driver) : result driver :=
  let g := init_grid (grid_size st) in
  '(crossword, placements) ← build_crossword g wls (rnd i);
  if bool_decide (size placements = length wls) then
    blanks ← count_blanks crossword;
    Ok (Driver (grid_size st)
               (<[blanks := (crossword, placements)]> (candidate_grids st)))
  else
    if bool_decide (i mod 5 = 0) then
      Ok (Driver (grid_size st + 1) (candidate_grids st))
    else Ok st.

(** The driver state before attempt [i]. *)
Definition state_at (i : nat) (wl : list word) (rnd : nat → direction * nat)
  : result driver :=
  let wls := sorted_by_len wl in
  first ← py_get wls 0;
  for_each (seq 0 i) (attempt wls rnd) (Driver (length first) ∅).

(** [sorted(candidate_grids.keys())[0]], for a non-empty dictionary. *)
Definition min_key {A : Type} (m : gmap nat A) : option nat :=
  match (map_to_list m).*1 with
  | [] => None
  | k :: ks => Some (foldr Nat.min k ks)
  end.

Definition max_iter : nat := 100.

(** [generate(wordlist)]: [Ok (Some (crossword, placements))] on success,
    [Ok None] for the bare [return] after the failure notice. *)
Definition generate (wl : list word) (rnd : nat → direction * nat)
  : result (option candidate) :=
  st ← state_at max_iter wl rnd;
  match min_key (candidate_grids st) with
  | None => Ok None
  | Some k =>
      match candidate_grids st !! k with
      | Some c => Ok (Some c)
      | None => Err KeyError
      end
  end.

(** ** Concrete words *)

Definition str (s : String.string) : word := String.list_ascii_of_string s.

Definition c1_words : list word :=
  [str "abcd"; str "cxe"; str "fei"; str "agh"].


(** ** Runs of a grid (specification side)

    A run is a maximal sequence of consecutive non-blank cells of one row or
    one column. *)

Fixpoint runs_acc (acc : word) (line : list ascii) : list word :=
  match line with
  | [] => [acc]
  | c :: line' =>
      if bool_decide (c = blank) then acc :: runs_acc [] line'
      else runs_acc (acc ++ [c]) line'
  end.

Definition runs (line : list ascii) : list word :=
  filter (λ r, r ≠ []) (runs_acc [] line).

Definition columns (g : grid) : list (list ascii) :=
  (λ c, omap (λ row : list ascii, row !! c) g) <$> seq 0 (length g).

(** Every run of length at least 2, in a row or a column, is a word of the list. *)
Definition no_orphan_runs (g : grid) (wl : list word) : bool :=
  forallb (λ line,
    forallb (λ r, (length r <? 2) || bool_decide (r ∈ wl)) (runs line))
    (g ++ columns g).

(** ** Specification vocabulary *)

Definition is_Ok {A : Type} (m : result A) : Prop := ∃ a, m = Ok a.

(** The cell at natural coordinates, when there is one. *)
Definition cell (g : grid) (r c : nat) : option ascii :=
  g !! r ≫= λ row, row !! c.

Definition square (n : nat) (g : grid) : Prop :=
  length g = n ∧ Forall (λ row : list ascii, length row = n) g.

(** The [i]-th cell of a span that starts at [(r0, c0)]. *)
Definition span_cell (d : direction) (r0 c0 : Z) (i : nat) : Z * Z :=
  match d with
  | Horiz => (r0, (c0 + Z.of_nat i)%Z)
  | Vert => ((r0 + Z.of_nat i)%Z, c0)
  end.

(** The start of the span of a word anchored by its letter [letter_idx] at
    [(row, col)], as [place_word] records it. *)
Definition span_start (d : direction) (row col letter_idx : Z) : Z * Z :=
  match d with
  | Horiz => (row, (col - letter_idx)%Z)
  | Vert => ((row - letter_idx)%Z, col)
  end.

(** Every cell under the word is blank or already holds the word's letter. *)
Definition fits (g : grid) (w : word) (d : direction) (start : Z * Z) : Prop :=
  ∀ i wi, w !! i = Some wi →
    ∃ c, grid_get g (span_cell d start.1 start.2 i).1
                    (span_cell d start.1 start.2 i).2 = Ok c
         ∧ (c = blank ∨ c = wi).

(** The word can be read off the grid along its span. *)
Definition reads (g : grid) (w : word) (d : direction) (start : Z * Z) : Prop :=
  ∀ i wi, w !! i = Some wi →
    grid_get g (span_cell d start.1 start.2 i).1
               (span_cell d start.1 start.2 i).2 = Ok wi.

(** [[grid[r][c + i] for i in range(len)]] (or down the column), the cells a
    reader of the placement map looks at. *)
Definition read_cells (g : grid) (d : direction) (start : Z * Z) (len : nat)
  : result word :=
  for_each (seq 0 len) (λ i acc,
    c ← grid_get g (span_cell d start.1 start.2 i).1
                   (span_cell d start.1 start.2 i).2;
    Ok (acc ++ [c])) [].

(** The candidates in the order the three nested loops meet them:
    [(i, row, col, direction)]. *)
Definition scan_order (w : word) (size : nat)
  : list (nat * nat * nat * direction) :=
  i ← seq 0 (length w);
  row ← seq 0 size;
  col ← seq 0 size;
  [(i, row, col, Horiz); (i, row, col, Vert)].

Definition to_position (c : nat * nat * nat * direction) : position :=
  (Z.of_nat c.1.1.2, Z.of_nat c.1.2, Z.of_nat c.1.1.1, c.2).

(** The score of a candidate: [Some n] when the cell holds the letter [w[i]]
    and the validator accepts the placement with [n] overlaps. *)
Definition candidate_score (g : grid) (w : word) (wl : list word)
    (c : nat * nat * nat * direction) : result (option Z) :=
  letter ← py_get w c.1.1.1;
  x ← grid_get g (Z.of_nat c.1.1.2) (Z.of_nat c.1.2);
  if bool_decide (letter = x) then
    is_valid_placement g w (Z.of_nat c.1.1.1) (Z.of_nat c.1.1.2)
      (Z.of_nat c.1.2) c.2 wl
  else Ok None.

(** [best] is the last candidate of maximal score among the scanned [cs]. *)
Definition last_best (score : nat * nat * nat * direction → result (option Z))
    (cs : list (nat * nat * nat * direction)) (best : Z * option position)
  : Prop :=
  match best.2 with
  | None => best.1 = (-1)%Z ∧ ∀ c, c ∈ cs → score c = Ok None
  | Some p =>
      ∃ pre c post,
        cs = pre ++ c :: post ∧ p = to_position c
        ∧ score c = Ok (Some best.1)
        ∧ (∀ q s, q ∈ pre → score q = Ok (Some s) → (s ≤ best.1)%Z)
        ∧ (∀ q s, q ∈ post → score q = Ok (Some s) → (s < best.1)%Z)
  end.

(** Shape of the builder state: a square grid, and slots [k] that hold
    the [k]-th word of the sorted list. *)
Definition build_shape (n : nat) (wl : list word)
    (st : grid * gmap nat placement) : Prop :=
  square n st.1
  ∧ ∀ k w pos d, st.2 !! k = Some (w, pos, d) →
      1 ≤ k ∧ wl !! (k - 1) = Some w.

(** Every recorded word can be read off the grid. *)
Definition build_reads (st : grid * gmap nat placement) : Prop :=
  ∀ k w pos d, st.2 !! k = Some (w, pos, d) → reads st.1 w d pos.

(** The grid size used by attempt [i]. *)
Definition size_at (i : nat) (wl : list word) (rnd : nat → direction * nat)
  : result nat :=
  st ← state_at i wl rnd; Ok (grid_size st).

(** What attempt [i] builds, and whether its placement map is complete. *)
Definition built_at (i : nat) (wl : list word) (rnd : nat → direction * nat)
  : result (candidate * bool) :=
  st ← state_at i wl rnd;
  c ← build_crossword (init_grid (grid_size st)) (sorted_by_len wl) (rnd i);
  Ok (c, bool_decide (size c.2 = length (sorted_by_len wl))).

Definition rnd_first_row : nat → direction * nat := λ _, (Horiz, 0).

Definition ab_grid : grid := [str "ab"; [blank; blank]].

Definition ab_placements : gmap nat placement :=
  {[1 := (str "ab", (0%Z, 0%Z), Horiz)]}.

(** A grid with the letter [a] in two opposite corners. *)
Definition tie_grid : grid :=
  [str "a  "; str "   "; str "  a"].

Definition abc_state : grid * gmap nat placement :=
  ([str "ab"; [blank; "c"%char]],
   <[2 := (str "bc", (0%Z, 1%Z), Vert)]> ab_placements).

(** The grid and the placement map returned for [c1_words] when every
    attempt draws a horizontal first word in row 0. *)
Definition c1_grid : grid :=
  [str "abcd"; str "g x "; str "hfei"; str "    "].

Definition c1_placements : gmap nat placement :=
  list_to_map
    [(1, (str "abcd", (0%Z, 0%Z), Horiz)); (2, (str "cxe", (0%Z, 2%Z), Vert));
     (3, (str "fei", (2%Z, 1%Z), Horiz)); (4, (str "agh", (0%Z, 0%Z), Vert))].

(** A grid whose column 0 holds the run ["xabc"]. *)
Definition c4_grid : grid :=
  [str "x    "; str "a    "; str "b    "; str "c    "; str "     "].

(** ** print_grid

    [print(' | '.join(row))] for every row: the lines written to the
    terminal, in order. *)

Fixpoint join_cells (row : list ascii) : list ascii :=
  match row with
  | [] => []
  | c :: rest =>
      match rest with
      | [] => [c]
      | _ :: _ => c :: " "%char :: "|"%char :: " "%char :: join_cells rest
      end
  end.

Definition print_grid (g : grid) : list (list ascii) := join_cells <$> g.

(** The number of blank cells of a grid. *)
Definition blank_cells (g : grid) : nat :=
  length (filter (λ c, c = blank) (concat g)).

(** The letters of a word list that lie before position [k]. *)
Definition earlier_letters (wl : list word) (k : nat) : list ascii :=
  concat (take k wl).

(** Every non-blank cell holds one of the letters [ls]. *)
Definition letters_from (ls : list ascii) (g : grid) : Prop :=
  ∀ r c x, grid_get g r c = Ok x → x ≠ blank → x ∈ ls.

(** A run in which attempt 5 draws row 1 and every other attempt row 0. *)
Definition rnd_row1_at5 : nat → direction * nat :=
  λ i, (Horiz, if bool_decide (i = 5) then 1 else 0).

Definition abc_words : list word := [str "abc"; str "ca"; str "ab"].

(** The candidate of attempt 0 (size 3) and the candidate of attempt 6
    (size 4) of [generate abc_words rnd_row1_at5]. *)
Definition abc_dense : grid * gmap nat placement :=
  ([str "abc"; str "b a"; str "   "],
   list_to_map
     [(1, (str "abc", (0%Z, 0%Z), Horiz)); (2, (str "ca", (0%Z, 2%Z), Vert));
      (3, (str "ab", (0%Z, 0%Z), Vert))]).

Definition abc_sparse : grid * gmap nat placement :=
  ([str "abc "; str "  ab"; str "    "; str "    "],
   list_to_map
     [(1, (str "abc", (0%Z, 0%Z), Horiz)); (2, (str "ca", (0%Z, 2%Z), Vert));
      (3, (str "ab", (1%Z, 2%Z), Horiz))]).


(** The builder's state for the words ["abc"] and ["x y"] after the first
    word, and after the second. *)
Definition before_xy : grid * gmap nat placement :=
  ([str "abc"; str "   "; str "   "],
   {[1 := (str "abc", (0%Z, 0%Z), Horiz)]}).

Definition after_xy : grid * gmap nat placement :=
  ([str "abc"; str "   "; str "x y"],
   <[2 := (str "x y", (2%Z, 0%Z), Horiz)]>
     ({[1 := (str "abc", (0%Z, 0%Z), Horiz)]} : gmap nat placement)).

(** * Properties *)

(** ** The result monad and loops *)

Lemma bind_Ok {A B : Type} (m : result A) (f : A → result B) (b : B) :
  m ≫= f = Ok b ↔ ∃ a, m = Ok a ∧ f a = Ok b.
Proof.
  destruct m as [a|e]; simpl; split.
  - intros Hf. by exists a.
  - by intros (a' & [= ->] & Hf).
  - done.
  - by intros (a' & [=] & _).
Qed.

Lemma bind_is_Ok {A B : Type} (m : result A) (f : A → result B) :
  is_Ok m → (∀ a, m = Ok a → is_Ok (f a)) → is_Ok (m ≫= f).
Proof. intros [a ->] Hf. simpl. by apply Hf. Qed.

Lemma is_Ok_Ok {A : Type} (a : A) : is_Ok (Ok a).
Proof. by exists a. Qed.

#[local] Hint Resolve is_Ok_Ok : core.

(** Split the first binding of a hypothesis [x ← m; k = Ok r]. *)
Ltac inv_bind Hb :=
  let a := fresh "a" in
  let Ea := fresh "E" a in
  apply bind_Ok in Hb; destruct Hb as (a & Ea & Hb).

Lemma for_each_app {A S : Type} (xs ys : list A) (body : A → S → result S) s :
  for_each (xs ++ ys) body s = for_each xs body s ≫= for_each ys body.
Proof.
  revert s. induction xs as [|x xs IH]; intros s; simpl; [done|].
  destruct (body x s) as [s'|e]; simpl; [apply IH|done].
Qed.

(** A loop whose body keeps an invariant and never raises does not raise. *)
Lemma for_each_inv {A S : Type} (I : S → Prop) (P : A → Prop)
    (xs : list A) (body : A → S → result S) s :
  Forall P xs →
  (∀ x s, P x → I s → ∃ s', body x s = Ok s' ∧ I s') →
  I s → ∃ s', for_each xs body s = Ok s' ∧ I s'.
Proof.
  intros HP Hbody. revert s.
  induction HP as [|x xs Hx _ IH]; intros s Hs; simpl; [by exists s|].
  destruct (Hbody x s Hx Hs) as (s' & -> & Hs'). simpl. by apply IH.
Qed.

(** A loop that returns has kept every invariant its body keeps. *)
Lemma for_each_keeps {A S : Type} (I : S → Prop) (P : A → Prop)
    (xs : list A) (body : A → S → result S) s s' :
  Forall P xs →
  (∀ x s s', P x → I s → body x s = Ok s' → I s') →
  I s → for_each xs body s = Ok s' → I s'.
Proof.
  intros HP Hbody. revert s.
  induction HP as [|x xs Hx _ IH]; intros s Hs; simpl.
  - by intros [= <-].
  - intros Hrun. inv_bind Hrun. eapply IH; [|done]. by eapply Hbody.
Qed.

(** ** Grids *)

Lemma axis_get_Ok {A : Type} (l : list A) (i : Z) (x : A) :
  axis_get l i = Ok x ↔ (0 ≤ i)%Z ∧ l !! Z.to_nat i = Some x.
Proof.
  unfold axis_get. case_bool_decide as Hi.
  - destruct (l !! Z.to_nat i) as [y|]; split.
    + by intros [= ->].
    + by intros [_ [= ->]].
    + done.
    + by intros [_ ?].
  - split; [done|]. by intros [? _].
Qed.

Lemma grid_get_Ok (g : grid) (r c : Z) (x : ascii) :
  grid_get g r c = Ok x
  ↔ (0 ≤ r)%Z ∧ (0 ≤ c)%Z ∧ cell g (Z.to_nat r) (Z.to_nat c) = Some x.
Proof.
  unfold grid_get, cell. rewrite bind_Ok. split.
  - intros (row & Hr%axis_get_Ok & Hc%axis_get_Ok).
    destruct Hr as [? ->], Hc as [? Hc]. simpl. done.
  - intros (Hr & Hc & Hcell).
    destruct (g !! Z.to_nat r) as [row|] eqn:Hrow; [|done].
    exists row. by rewrite !axis_get_Ok.
Qed.

Lemma square_cell (n : nat) (g : grid) (r c : nat) :
  square n g → r < n → c < n → is_Some (cell g r c).
Proof.
  intros [Hlen Hrows] Hr Hc. unfold cell.
  destruct (lookup_lt_is_Some_2 g r) as [row Hrow]; [lia|].
  rewrite Hrow. simpl. apply lookup_lt_is_Some_2.
  rewrite Forall_lookup in Hrows. by rewrite (Hrows _ _ Hrow).
Qed.

Lemma cell_Some_lt (n : nat) (g : grid) (r c : nat) (x : ascii) :
  square n g → cell g r c = Some x → r < n ∧ c < n.
Proof.
  intros [Hlen Hrows]. unfold cell.
  destruct (g !! r) as [row|] eqn:Hrow; [|done]. simpl. intros Hc.
  rewrite Forall_lookup in Hrows.
  apply lookup_lt_Some in Hc. rewrite (Hrows _ _ Hrow) in Hc.
  apply lookup_lt_Some in Hrow. lia.
Qed.

Lemma grid_get_square (n : nat) (g : grid) (r c : Z) :
  square n g → (0 ≤ r < Z.of_nat n)%Z → (0 ≤ c < Z.of_nat n)%Z →
  is_Ok (grid_get g r c).
Proof.
  intros Hsq Hr Hc.
  destruct (square_cell n g (Z.to_nat r) (Z.to_nat c) Hsq) as [x Hx];
    [lia|lia|].
  exists x. apply grid_get_Ok. split_and!; [lia|lia|done].
Qed.

Lemma grid_get_lt (n : nat) (g : grid) (r c : Z) (x : ascii) :
  square n g → grid_get g r c = Ok x →
  (0 ≤ r < Z.of_nat n)%Z ∧ (0 ≤ c < Z.of_nat n)%Z.
Proof.
  intros Hsq (Hr & Hc & Hcell)%grid_get_Ok.
  destruct (cell_Some_lt _ _ _ _ _ Hsq Hcell). lia.
Qed.

Lemma init_grid_square (n : nat) : square n (init_grid n).
Proof.
  split; [apply length_replicate|].
  apply Forall_replicate, length_replicate.
Qed.

Lemma grid_set_Ok (g g' : grid) (r c : Z) (ch : ascii) :
  grid_set g r c ch = Ok g' →
  (0 ≤ r)%Z ∧ (0 ≤ c)%Z
  ∧ is_Some (cell g (Z.to_nat r) (Z.to_nat c))
  ∧ cell g' (Z.to_nat r) (Z.to_nat c) = Some ch
  ∧ (∀ r' c', (r', c') ≠ (Z.to_nat r, Z.to_nat c) →
       cell g' r' c' = cell g r' c')
  ∧ (∀ n, square n g → square n g').
Proof.
  unfold grid_set. intros Hset. inv_bind Hset. inv_bind Hset.
  injection Hset as <-.
  apply axis_get_Ok in Ea as [Hr Hrow], Ea0 as [Hc Hcol].
  split_and!; [done|done|..].
  - unfold cell. rewrite Hrow. simpl. by exists a0.
  - unfold cell. rewrite list_lookup_insert_eq by by eapply lookup_lt_Some.
    simpl. apply list_lookup_insert_eq. by eapply lookup_lt_Some.
  - intros r' c' Hne. unfold cell.
    destruct (decide (r' = Z.to_nat r)) as [->|Hr'].
    + rewrite list_lookup_insert_eq by by eapply lookup_lt_Some.
      rewrite Hrow. simpl. apply list_lookup_insert_ne. congruence.
    + by rewrite list_lookup_insert_ne.
  - intros n [Hlen Hrows]. split; [by rewrite length_insert|].
    apply Forall_insert; [done|]. rewrite length_insert.
    rewrite Forall_lookup in Hrows. by eapply Hrows.
Qed.

Lemma grid_set_square (n : nat) (g : grid) (r c : Z) (ch : ascii) :
  square n g → (0 ≤ r < Z.of_nat n)%Z → (0 ≤ c < Z.of_nat n)%Z →
  is_Ok (grid_set g r c ch).
Proof.
  intros Hsq Hr Hc. unfold grid_set.
  destruct (square_cell n g (Z.to_nat r) (Z.to_nat c) Hsq) as [x Hx];
    [lia|lia|].
  unfold cell in Hx. destruct (g !! Z.to_nat r) as [row|] eqn:Hrow; [|done].
  simpl in Hx.
  assert (axis_get g r = Ok row) as -> by (apply axis_get_Ok; split; [lia|done]).
  simpl.
  assert (axis_get row c = Ok x) as -> by (apply axis_get_Ok; split; [lia|done]).
  simpl. eauto.
Qed.

(** ** No exception in the adjacency checker and the validator *)

Section safety.
Context (n : nat) (g : grid) (wl : list word).
Hypothesis Hsq : square n g.
Hypothesis Hwl : wl ≠ [].

Let Hlen : length g = n := proj1 Hsq.

Ltac ok := solve [simpl; apply is_Ok_Ok].

Ltac scan_step IH :=
  simpl; case_bool_decide; [|ok];
  apply bind_is_Ok; [apply (grid_get_square n); [done|lia..]|];
  intros c _; destruct (bool_decide (c = blank)); simpl; [ok|];
  try (destruct (bool_decide _); simpl; [ok|]); apply IH.

Lemma look_up_is_Ok (row col : Z) (idxs : list nat) (w : word) :
  (0 ≤ row < Z.of_nat n)%Z → (0 ≤ col < Z.of_nat n)%Z →
  is_Ok (look_up g row col idxs w).
Proof.
  intros Hr Hc. revert w.
  induction idxs as [|i idxs IH]; intros w; [ok|]. scan_step IH.
Qed.

Lemma look_down_is_Ok (row col : Z) (idxs : list nat) (w : word) :
  (0 ≤ row < Z.of_nat n)%Z → (0 ≤ col < Z.of_nat n)%Z →
  is_Ok (look_down g row col idxs w).
Proof.
  intros Hr Hc. revert w.
  induction idxs as [|i idxs IH]; intros w; [ok|]. scan_step IH.
Qed.

Lemma look_left_is_Ok (row col : Z) (idxs : list nat) (w : word) :
  (0 ≤ row < Z.of_nat n)%Z → (0 ≤ col < Z.of_nat n)%Z →
  is_Ok (look_left g row col idxs w).
Proof.
  intros Hr Hc. revert w.
  induction idxs as [|i idxs IH]; intros w; [ok|]. scan_step IH.
Qed.

Lemma look_right_is_Ok (row col : Z) (idxs : list nat) (w : word) :
  (0 ≤ row < Z.of_nat n)%Z → (0 ≤ col < Z.of_nat n)%Z →
  is_Ok (look_right g row col idxs w).
Proof.
  intros Hr Hc. revert w.
  induction idxs as [|i idxs IH]; intros w; [ok|]. scan_step IH.
Qed.

Lemma is_adjacent_word_is_Ok (row col : Z) (d : direction) :
  (0 ≤ row < Z.of_nat n)%Z → (0 ≤ col < Z.of_nat n)%Z →
  is_Ok (is_adjacent_word g row col d wl).
Proof.
  intros Hr Hc. unfold is_adjacent_word.
  destruct wl as [|w0 ws]; [done|]. simpl.
  destruct d.
  - apply bind_is_Ok; [by apply (grid_get_square n)|]. intros c _.
    apply bind_is_Ok; [by apply look_left_is_Ok|]. intros w _.
    apply bind_is_Ok; [by apply look_right_is_Ok|]. intros; ok.
  - apply bind_is_Ok; [by apply (grid_get_square n)|]. intros c _.
    apply bind_is_Ok; [by apply look_up_is_Ok|]. intros w _.
    apply bind_is_Ok; [by apply look_down_is_Ok|]. intros; ok.
Qed.

Lemma neighbour_check_is_Ok (guard : bool) (r c : Z) (i : nat)
    (letter_idx : Z) (d : direction) (num : Z) :
  (guard = true → (0 ≤ r < Z.of_nat n)%Z ∧ (0 ≤ c < Z.of_nat n)%Z) →
  is_Ok (neighbour_check g guard r c i letter_idx d wl num).
Proof.
  intros Hin. unfold neighbour_check. destruct guard; [|ok].
  destruct Hin as [Hr Hc]; [done|].
  apply bind_is_Ok; [by apply (grid_get_square n)|]. intros a _.
  destruct (_ && _); [|ok].
  apply bind_is_Ok; [by apply is_adjacent_word_is_Ok|].
  intros [] _; ok.
Qed.

Lemma border_occupied_is_Ok (guard : bool) (r c : Z) :
  (guard = true → (0 ≤ r < Z.of_nat n)%Z ∧ (0 ≤ c < Z.of_nat n)%Z) →
  is_Ok (border_occupied g guard r c).
Proof.
  intros Hin. unfold border_occupied. destruct guard; [|ok].
  destruct Hin as [Hr Hc]; [done|].
  apply bind_is_Ok; [by apply (grid_get_square n)|]. intros; ok.
Qed.

Ltac letters_step IH :=
  simpl;
  apply bind_is_Ok; [unfold py_get; by destruct (lookup_lt_is_Some_2 _ _ ltac:(eassumption)) as [? ->]|];
  intros wi _;
  apply bind_is_Ok; [apply (grid_get_square n); [done|lia..]|];
  intros c _; case_bool_decide; [ok|];
  apply bind_is_Ok;
    [apply neighbour_check_is_Ok; intros ?%bool_decide_eq_true; lia|];
  intros [num1|] _; [|ok];
  apply bind_is_Ok;
    [apply neighbour_check_is_Ok; intros ?%bool_decide_eq_true; lia|];
  intros [num2|] _; [|ok];
  apply IH.

Lemma letters_H_is_Ok (w : word) (letter_idx row col : Z)
    (idxs : list nat) (num : Z) :
  (0 ≤ row < Z.of_nat n)%Z →
  Forall (λ i, i < length w
               ∧ (0 ≤ col - letter_idx + Z.of_nat i < Z.of_nat n)%Z) idxs →
  is_Ok (letters_H g w letter_idx row col wl idxs num).
Proof.
  intros Hr Hidx. revert num.
  induction Hidx as [|i idxs [Hi Hc] _ IH]; intros num; [ok|].
  letters_step IH.
Qed.

Lemma letters_V_is_Ok (w : word) (letter_idx row col : Z)
    (idxs : list nat) (num : Z) :
  (0 ≤ col < Z.of_nat n)%Z →
  Forall (λ i, i < length w
               ∧ (0 ≤ row - letter_idx + Z.of_nat i < Z.of_nat n)%Z) idxs →
  is_Ok (letters_V g w letter_idx row col wl idxs num).
Proof.
  intros Hc Hidx. revert num.
  induction Hidx as [|i idxs [Hi Hr] _ IH]; intros num; [ok|].
  letters_step IH.
Qed.

Lemma is_valid_placement_is_Ok (w : word) (letter_idx row col : Z)
    (d : direction) :
  (0 ≤ row < Z.of_nat n)%Z → (0 ≤ col < Z.of_nat n)%Z →
  is_Ok (is_valid_placement g w letter_idx row col d wl).
Proof.
  intros Hr Hc. unfold is_valid_placement. rewrite Hlen.
  destruct d; (case_bool_decide as Hb; [ok|]);
    (apply bind_is_Ok;
      [apply border_occupied_is_Ok; intros ?%bool_decide_eq_true; lia|]);
    intros [] _; try ok;
    (apply bind_is_Ok;
      [apply border_occupied_is_Ok; intros ?%bool_decide_eq_true; lia|]);
    intros [] _; try ok.
  - apply letters_H_is_Ok; [done|]. apply Forall_forall.
    intros i Hi%elem_of_seq. lia.
  - apply letters_V_is_Ok; [done|]. apply Forall_forall.
    intros i Hi%elem_of_seq. lia.
Qed.
End safety.

(** ** Spans *)

Lemma py_get_Ok {A : Type} (l : list A) (i : nat) (x : A) :
  py_get l i = Ok x ↔ l !! i = Some x.
Proof.
  unfold py_get. destruct (l !! i); split; intros Heq; by simplify_eq.
Qed.

Lemma grid_get_cell (g : grid) (r c : Z) :
  grid_get g r c =
    if bool_decide (0 ≤ r ∧ 0 ≤ c)%Z then
      match cell g (Z.to_nat r) (Z.to_nat c) with
      | Some x => Ok x
      | None => Err OutOfBounds
      end
    else Err OutOfBounds.
Proof.
  unfold grid_get, cell, axis_get.
  destruct (decide (0 ≤ r)%Z) as [Hr|Hr], (decide (0 ≤ c)%Z) as [Hc|Hc];
    repeat first [rewrite bool_decide_eq_true_2 by lia
                 |rewrite bool_decide_eq_false_2 by lia];
    simpl; try done;
    destruct (g !! Z.to_nat r) as [row|]; simpl; try done;
    repeat first [rewrite bool_decide_eq_true_2 by lia
                 |rewrite bool_decide_eq_false_2 by lia];
    try done.
Qed.

Lemma grid_set_get (g g' : grid) (r c : Z) (ch : ascii) :
  grid_set g r c ch = Ok g' →
  ∀ r' c', grid_get g' r' c' =
    if bool_decide ((r', c') = (r, c)) then Ok ch else grid_get g r' c'.
Proof.
  intros (Hr & Hc & _ & Hnew & Hold & _)%grid_set_Ok r' c'.
  rewrite !grid_get_cell.
  destruct (decide ((r', c') = (r, c))) as [Heq|Heq].
  - simplify_eq. rewrite !bool_decide_eq_true_2 by (done || lia).
    by rewrite Hnew.
  - rewrite (bool_decide_eq_false_2 _ Heq).
    case_bool_decide as Hpos; [|done].
    rewrite Hold; [done|]. intros [= Hr' Hc']. apply Heq. f_equal; lia.
Qed.

(** ** What the validator guarantees *)

Ltac letters_Some_step IH Hrun Hi :=
  let Hclash := fresh "Hclash" in
  let Hc := fresh "Hc" in
  simpl in Hrun; inv_bind Hrun; inv_bind Hrun;
  case_bool_decide as Hclash; [done|];
  inv_bind Hrun;
  match goal with
  | _ : neighbour_check _ _ _ _ _ _ _ _ _ = Ok ?o |- _ => destruct o; [|done]
  end;
  inv_bind Hrun;
  match goal with
  | _ : neighbour_check _ _ _ _ _ _ _ _ _ = Ok ?o, _ : _ = Ok (Some _) |- _ =>
      destruct o; [|done]
  end;
  apply elem_of_cons in Hi as [->|Hi]; [|by eapply IH];
  match goal with
  | Hw : py_get _ _ = Ok _ |- _ => apply py_get_Ok in Hw
  end;
  intros wi' Hwi'; simplify_eq;
  eexists; split; [done|];
  apply not_and_l in Hclash as [Hc|Hc]; apply dec_stable in Hc; eauto.

Lemma letters_H_Some (g : grid) (w : word) (letter_idx row col : Z)
    (wl : list word) (idxs : list nat) (num s : Z) :
  letters_H g w letter_idx row col wl idxs num = Ok (Some s) →
  ∀ i, i ∈ idxs → ∀ wi, w !! i = Some wi →
    ∃ c, grid_get g row (col - letter_idx + Z.of_nat i) = Ok c
         ∧ (c = blank ∨ c = wi).
Proof.
  revert num. induction idxs as [|i0 idxs IH]; intros num Hrun i Hi.
  - by apply elem_of_nil in Hi.
  - letters_Some_step IH Hrun Hi.
Qed.

Lemma letters_V_Some (g : grid) (w : word) (letter_idx row col : Z)
    (wl : list word) (idxs : list nat) (num s : Z) :
  letters_V g w letter_idx row col wl idxs num = Ok (Some s) →
  ∀ i, i ∈ idxs → ∀ wi, w !! i = Some wi →
    ∃ c, grid_get g (row - letter_idx + Z.of_nat i) col = Ok c
         ∧ (c = blank ∨ c = wi).
Proof.
  revert num. induction idxs as [|i0 idxs IH]; intros num Hrun i Hi.
  - by apply elem_of_nil in Hi.
  - letters_Some_step IH Hrun Hi.
Qed.

Lemma is_valid_placement_fits (g : grid) (w : word) (letter_idx row col : Z)
    (d : direction) (wl : list word) (s : Z) :
  is_valid_placement g w letter_idx row col d wl = Ok (Some s) →
  fits g w d (span_start d row col letter_idx).
Proof.
  unfold is_valid_placement, fits. intros Hv i wi Hwi.
  destruct d; (case_bool_decide; [done|]);
    inv_bind Hv; (destruct a; [done|]);
    inv_bind Hv; (destruct a; [done|]); simpl.
  - eapply letters_H_Some; [done| |done].
    apply elem_of_seq. apply lookup_lt_Some in Hwi. lia.
  - eapply letters_V_Some; [done| |done].
    apply elem_of_seq. apply lookup_lt_Some in Hwi. lia.
Qed.

(** ** place_word *)

Ltac write_step IH Hrun Hnd i0 :=
  let g1 := fresh "g1" in
  let Hnotin := fresh "Hnotin" in
  let Hset := fresh "Hset" in
  let Hw := fresh "Hw" in
  let Hwr := fresh "Hwr" in let Hun := fresh "Hun" in let Hsq := fresh "Hsq" in
  simpl in Hrun;
  apply bind_Ok in Hrun as (? & Hw%py_get_Ok & Hrun);
  apply bind_Ok in Hrun as (g1 & Hset & Hrun);
  apply NoDup_cons in Hnd as [Hnotin Hnd];
  destruct (IH _ Hrun Hnd) as (Hwr & Hun & Hsq);
  split_and!;
  [ intros i wi [->|Hi]%elem_of_cons Hwi; [|by apply Hwr];
    rewrite Hun, (grid_set_get _ _ _ _ _ Hset);
    [ rewrite bool_decide_eq_true_2 by done; congruence
    | intros j Hj [=]; apply Hnotin;
      by replace i0 with j by lia ]
  | intros r' c' Hne; rewrite Hun, (grid_set_get _ _ _ _ _ Hset);
    [ rewrite bool_decide_eq_false_2; [done|]; apply Hne; left
    | intros j Hj; apply Hne; by right ]
  | intros n Hn; apply Hsq;
    by apply (grid_set_Ok _ _ _ _ _ Hset) ].

Lemma write_H_spec (g g' : grid) (w : word) (letter_idx row col : Z)
    (idxs : list nat) :
  write_H g w letter_idx row col idxs = Ok g' → NoDup idxs →
  (∀ i wi, i ∈ idxs → w !! i = Some wi →
     grid_get g' row (col - letter_idx + Z.of_nat i) = Ok wi)
  ∧ (∀ r' c', (∀ i, i ∈ idxs → (r', c') ≠ (row, col - letter_idx + Z.of_nat i)%Z) →
       grid_get g' r' c' = grid_get g r' c')
  ∧ (∀ n, square n g → square n g').
Proof.
  revert g. induction idxs as [|i0 idxs IH]; intros g Hrun Hnd.
  - injection Hrun as <-. split_and!; [|done..].
    by intros i wi ?%elem_of_nil.
  - write_step IH Hrun Hnd i0.
Qed.

Lemma write_V_spec (g g' : grid) (w : word) (letter_idx row col : Z)
    (idxs : list nat) :
  write_V g w letter_idx row col idxs = Ok g' → NoDup idxs →
  (∀ i wi, i ∈ idxs → w !! i = Some wi →
     grid_get g' (row - letter_idx + Z.of_nat i) col = Ok wi)
  ∧ (∀ r' c', (∀ i, i ∈ idxs → (r', c') ≠ ((row - letter_idx + Z.of_nat i)%Z, col)) →
       grid_get g' r' c' = grid_get g r' c')
  ∧ (∀ n, square n g → square n g').
Proof.
  revert g. induction idxs as [|i0 idxs IH]; intros g Hrun Hnd.
  - injection Hrun as <-. split_and!; [|done..].
    by intros i wi ?%elem_of_nil.
  - write_step IH Hrun Hnd i0.
Qed.

Ltac write_ok_step IH n :=
  simpl;
  apply bind_is_Ok;
    [unfold py_get;
     match goal with
     | Hi : _ < length ?w |- _ =>
         by destruct (lookup_lt_is_Some_2 w _ Hi) as [? ->]
     end|];
  intros wi _;
  apply bind_is_Ok; [apply (grid_set_square n); [done|lia..]|];
  intros g1 Hset; apply IH; by apply (grid_set_Ok _ _ _ _ _ Hset).

Lemma write_H_is_Ok (n : nat) (g : grid) (w : word) (letter_idx row col : Z)
    (idxs : list nat) :
  square n g → (0 ≤ row < Z.of_nat n)%Z →
  Forall (λ i, i < length w
               ∧ (0 ≤ col - letter_idx + Z.of_nat i < Z.of_nat n)%Z) idxs →
  is_Ok (write_H g w letter_idx row col idxs).
Proof.
  intros Hsq Hr Hidx. revert g Hsq.
  induction Hidx as [|i idxs [Hi Hc] _ IH]; intros g Hsq; [by eexists|].
  write_ok_step IH n.
Qed.

Lemma write_V_is_Ok (n : nat) (g : grid) (w : word) (letter_idx row col : Z)
    (idxs : list nat) :
  square n g → (0 ≤ col < Z.of_nat n)%Z →
  Forall (λ i, i < length w
               ∧ (0 ≤ row - letter_idx + Z.of_nat i < Z.of_nat n)%Z) idxs →
  is_Ok (write_V g w letter_idx row col idxs).
Proof.
  intros Hsq Hc Hidx. revert g Hsq.
  induction Hidx as [|i idxs [Hi Hr] _ IH]; intros g Hsq; [by eexists|].
  write_ok_step IH n.
Qed.

Lemma place_word_spec (g g' : grid) (w : word) (letter_idx row col : Z)
    (d : direction) (pl pl' : gmap nat placement) (k : nat) :
  place_word g w letter_idx row col d pl k = Ok (g', pl') →
  let start := span_start d row col letter_idx in
  pl' = <[k := (w, start, d)]> pl
  ∧ reads g' w d start
  ∧ (∀ r' c', (∀ i, i < length w → (r', c') ≠ span_cell d start.1 start.2 i) →
       grid_get g' r' c' = grid_get g r' c')
  ∧ (∀ n, square n g → square n g').
Proof.
  unfold place_word. intros Hp.
  destruct d; inv_bind Hp; injection Hp as <- <-; simpl.
  - destruct (write_H_spec _ _ _ _ _ _ _ Ea (NoDup_seq _ _)) as (Hwr & Hun & Hsq).
    split_and!; [done| | |done].
    + intros i wi Hwi. apply Hwr; [|done].
      apply elem_of_seq. apply lookup_lt_Some in Hwi. lia.
    + intros r' c' Hne. apply Hun. intros i Hi%elem_of_seq.
      apply Hne. lia.
  - destruct (write_V_spec _ _ _ _ _ _ _ Ea (NoDup_seq _ _)) as (Hwr & Hun & Hsq).
    split_and!; [done| | |done].
    + intros i wi Hwi. apply Hwr; [|done].
      apply elem_of_seq. apply lookup_lt_Some in Hwi. lia.
    + intros r' c' Hne. apply Hun. intros i Hi%elem_of_seq.
      apply Hne. lia.
Qed.

(** A span whose cells all exist can be written. *)
Lemma place_word_is_Ok (n : nat) (g : grid) (w : word) (letter_idx row col : Z)
    (d : direction) (pl : gmap nat placement) (k : nat) :
  square n g →
  (∀ i, i < length w →
     let rc := span_cell d (span_start d row col letter_idx).1
                           (span_start d row col letter_idx).2 i in
     (0 ≤ rc.1 < Z.of_nat n)%Z ∧ (0 ≤ rc.2 < Z.of_nat n)%Z) →
  is_Ok (place_word g w letter_idx row col d pl k).
Proof.
  intros Hsq Hin. unfold place_word.
  destruct (decide (w = [])) as [->|Hne]; [destruct d; by eexists|].
  assert (0 < length w) as Hpos by (destruct w; [done|simpl; lia]).
  destruct d; simpl in Hin.
  - destruct (write_H_is_Ok n g w letter_idx row col (seq 0 (length w)))
      as [g' ->]; [done| | |by eexists].
    + destruct (Hin 0 Hpos) as [? _]. lia.
    + apply Forall_forall. intros i Hi%elem_of_seq.
      split; [lia|]. apply Hin. lia.
  - destruct (write_V_is_Ok n g w letter_idx row col (seq 0 (length w)))
      as [g' ->]; [done| | |by eexists].
    + destruct (Hin 0 Hpos) as [_ ?]. lia.
    + apply Forall_forall. intros i Hi%elem_of_seq.
      split; [lia|]. apply Hin. lia.
Qed.

Lemma fits_in_range (n : nat) (g : grid) (w : word) (d : direction)
    (start : Z * Z) (i : nat) :
  square n g → fits g w d start → i < length w →
  let rc := span_cell d start.1 start.2 i in
  (0 ≤ rc.1 < Z.of_nat n)%Z ∧ (0 ≤ rc.2 < Z.of_nat n)%Z.
Proof.
  intros Hsq Hfits Hi.
  destruct (lookup_lt_is_Some_2 w i Hi) as [wi Hwi].
  destruct (Hfits i wi Hwi) as (c & Hget & _).
  by eapply grid_get_lt.
Qed.

(** Placing a word that fits never changes a letter already on the grid. *)
Lemma place_word_keeps (g g' : grid) (w : word) (letter_idx row col : Z)
    (d : direction) (pl pl' : gmap nat placement) (k : nat) :
  fits g w d (span_start d row col letter_idx) →
  place_word g w letter_idx row col d pl k = Ok (g', pl') →
  ∀ r c x, grid_get g r c = Ok x → x ≠ blank → grid_get g' r c = Ok x.
Proof.
  intros Hfits Hp r c x Hget Hx.
  destruct (place_word_spec _ _ _ _ _ _ _ _ _ _ Hp) as (_ & Hreads & Hun & _).
  set (start := span_start d row col letter_idx) in *.
  destruct (decide (Exists (λ i, (r, c) = span_cell d start.1 start.2 i)
                      (seq 0 (length w)))) as [Hex|Hnex].
  - apply Exists_exists in Hex as (i & Hi%elem_of_seq & Hrc).
    destruct (lookup_lt_is_Some_2 w i) as [wi Hwi]; [lia|].
    destruct (Hfits i wi Hwi) as (c0 & Hc0 & Hor).
    specialize (Hreads i wi Hwi). rewrite <- Hrc in Hc0, Hreads.
    simpl in Hc0, Hreads. rewrite Hget in Hc0. injection Hc0 as <-.
    by destruct Hor as [->| ->].
  - rewrite Hun; [done|]. intros i Hi Hrc. apply Hnex.
    apply Exists_exists. exists i. split; [|done]. apply elem_of_seq. lia.
Qed.

(** ** Overlap counts are never negative *)

Lemma neighbour_check_le (g : grid) (guard : bool) (r c : Z) (i : nat)
    (letter_idx : Z) (d : direction) (wl : list word) (num s : Z) :
  neighbour_check g guard r c i letter_idx d wl num = Ok (Some s) →
  (num ≤ s)%Z.
Proof.
  unfold neighbour_check. destruct guard; [|intros [= <-]; lia].
  intros Hn. inv_bind Hn. destruct (_ && _); [|injection Hn as <-; lia].
  inv_bind Hn. destruct a0; [|done]. injection Hn as <-. lia.
Qed.

Ltac letters_le_step IH Hrun :=
  let Hn1 := fresh "Hn" in
  let Hn2 := fresh "Hn" in
  simpl in Hrun; inv_bind Hrun; inv_bind Hrun;
  destruct (bool_decide (_ ∧ _)); [done|];
  apply bind_Ok in Hrun as ([?|] & Hn1 & Hrun); [|done];
  apply neighbour_check_le in Hn1;
  apply bind_Ok in Hrun as ([?|] & Hn2 & Hrun); [|done];
  apply neighbour_check_le in Hn2;
  apply IH in Hrun;
  destruct (bool_decide (_ = _)); lia.

Lemma letters_H_le (g : grid) (w : word) (letter_idx row col : Z)
    (wl : list word) (idxs : list nat) (num s : Z) :
  letters_H g w letter_idx row col wl idxs num = Ok (Some s) → (num ≤ s)%Z.
Proof.
  revert num. induction idxs as [|i0 idxs IH]; intros num Hrun.
  - injection Hrun as <-. lia.
  - letters_le_step IH Hrun.
Qed.

Lemma letters_V_le (g : grid) (w : word) (letter_idx row col : Z)
    (wl : list word) (idxs : list nat) (num s : Z) :
  letters_V g w letter_idx row col wl idxs num = Ok (Some s) → (num ≤ s)%Z.
Proof.
  revert num. induction idxs as [|i0 idxs IH]; intros num Hrun.
  - injection Hrun as <-. lia.
  - letters_le_step IH Hrun.
Qed.

Lemma is_valid_placement_nonneg (g : grid) (w : word) (letter_idx row col : Z)
    (d : direction) (wl : list word) (s : Z) :
  is_valid_placement g w letter_idx row col d wl = Ok (Some s) → (0 ≤ s)%Z.
Proof.
  unfold is_valid_placement. intros Hv.
  destruct d; (case_bool_decide; [done|]);
    inv_bind Hv; (destruct a; [done|]);
    inv_bind Hv; (destruct a; [done|]).
  - by eapply letters_H_le.
  - by eapply letters_V_le.
Qed.

(** A cell of the span that already holds the word's letter is counted. *)
Ltac letters_overlap_step IH Hle Hrun Hi Hwi Hget :=
  let Hn1 := fresh "Hn" in
  let Hn2 := fresh "Hn" in
  let Hw0 := fresh "Hw" in
  let Hg0 := fresh "Hg" in
  simpl in Hrun;
  apply bind_Ok in Hrun as (? & Hw0%py_get_Ok & Hrun);
  apply bind_Ok in Hrun as (? & Hg0 & Hrun);
  destruct (bool_decide (_ ∧ _)); [done|];
  apply bind_Ok in Hrun as ([?|] & Hn1 & Hrun); [|done];
  apply neighbour_check_le in Hn1;
  apply bind_Ok in Hrun as ([?|] & Hn2 & Hrun); [|done];
  apply neighbour_check_le in Hn2;
  apply elem_of_cons in Hi as [->|Hi];
  [ apply Hle in Hrun; rewrite Hget in Hg0; injection Hg0 as <-;
    rewrite Hwi in Hw0; injection Hw0 as <-;
    rewrite bool_decide_eq_true_2 in Hn1 by done; lia
  | apply (IH _ Hrun) in Hi; destruct (bool_decide (_ = _)); lia ].

Lemma letters_H_overlap (g : grid) (w : word) (letter_idx row col : Z)
    (wl : list word) (idxs : list nat) (num s : Z) (i : nat) (wi : ascii) :
  letters_H g w letter_idx row col wl idxs num = Ok (Some s) →
  i ∈ idxs → w !! i = Some wi →
  grid_get g row (col - letter_idx + Z.of_nat i) = Ok wi →
  (num + 1 ≤ s)%Z.
Proof.
  intros Hrun Hi Hwi Hget. revert num Hrun Hi.
  induction idxs as [|i0 idxs IH]; intros num Hrun Hi.
  - by apply elem_of_nil in Hi.
  - pose proof (letters_H_le g w letter_idx row col wl idxs) as Hle.
    letters_overlap_step IH Hle Hrun Hi Hwi Hget.
Qed.

Lemma letters_V_overlap (g : grid) (w : word) (letter_idx row col : Z)
    (wl : list word) (idxs : list nat) (num s : Z) (i : nat) (wi : ascii) :
  letters_V g w letter_idx row col wl idxs num = Ok (Some s) →
  i ∈ idxs → w !! i = Some wi →
  grid_get g (row - letter_idx + Z.of_nat i) col = Ok wi →
  (num + 1 ≤ s)%Z.
Proof.
  intros Hrun Hi Hwi Hget. revert num Hrun Hi.
  induction idxs as [|i0 idxs IH]; intros num Hrun Hi.
  - by apply elem_of_nil in Hi.
  - pose proof (letters_V_le g w letter_idx row col wl idxs) as Hle.
    letters_overlap_step IH Hle Hrun Hi Hwi Hget.
Qed.

(** A placement anchored on a cell that holds the anchored letter has at
    least one overlap. *)
Lemma is_valid_placement_anchor (g : grid) (w : word) (i : nat) (row col : Z)
    (d : direction) (wl : list word) (s : Z) (letter : ascii) :
  is_valid_placement g w (Z.of_nat i) row col d wl = Ok (Some s) →
  w !! i = Some letter → grid_get g row col = Ok letter →
  (1 ≤ s)%Z.
Proof.
  unfold is_valid_placement. intros Hv Hwi Hget.
  assert (i ∈ seq 0 (length w)) as Hi.
  { apply elem_of_seq. apply lookup_lt_Some in Hwi. lia. }
  destruct d; (case_bool_decide; [done|]);
    inv_bind Hv; (destruct a; [done|]);
    inv_bind Hv; (destruct a; [done|]).
  - eapply (letters_H_overlap _ _ _ _ _ _ _ 0%Z) in Hv; [lia|done..|].
    by replace (col - Z.of_nat i + Z.of_nat i)%Z with col by lia.
  - eapply (letters_V_overlap _ _ _ _ _ _ _ 0%Z) in Hv; [lia|done..|].
    by replace (row - Z.of_nat i + Z.of_nat i)%Z with row by lia.
Qed.

(** ** find_best_placement *)

Section last_best.
Context (score : nat * nat * nat * direction → result (option Z)).
Hypothesis score_nonneg : ∀ c s, score c = Ok (Some s) → (0 ≤ s)%Z.

Lemma last_best_skip cs best c :
  last_best score cs best → score c = Ok None →
  last_best score (cs ++ [c]) best.
Proof.
  unfold last_best. destruct best as [bs [p|]]; simpl.
  - intros (pre & c0 & post & -> & -> & Hc0 & Hpre & Hpost) Hc.
    exists pre, c0, (post ++ [c]). split_and!; [by rewrite <- app_assoc|done..|].
    intros q s [Hq|Hq%list_elem_of_singleton]%elem_of_app Hs; [by eapply Hpost|].
    congruence.
  - intros [-> Hall] Hc. split; [done|].
    intros q [Hq|Hq%list_elem_of_singleton]%elem_of_app; [by apply Hall|].
    by subst.
Qed.

Lemma last_best_le cs best q s :
  last_best score cs best → q ∈ cs → score q = Ok (Some s) → (s ≤ best.1)%Z.
Proof.
  unfold last_best. destruct best as [bs [p|]]; simpl.
  - intros (pre & c0 & post & -> & -> & Hc0 & Hpre & Hpost).
    intros [Hq|[->|Hq]%elem_of_cons]%elem_of_app Hs.
    + by eapply Hpre.
    + rewrite Hc0 in Hs. injection Hs as <-. lia.
    + apply Z.lt_le_incl. by eapply Hpost.
  - intros [-> Hall] Hq Hs. by rewrite (Hall _ Hq) in Hs.
Qed.

Lemma last_best_take cs best c s :
  last_best score cs best → score c = Ok (Some s) → (s >= best.1)%Z →
  last_best score (cs ++ [c]) (s, Some (to_position c)).
Proof.
  intros Hb Hc Hge. unfold last_best. simpl.
  exists cs, c, []. split_and!; [done..| |].
  - intros q s' Hq Hs'. pose proof (last_best_le _ _ _ _ Hb Hq Hs'). lia.
  - by intros q s' ?%elem_of_nil.
Qed.

Lemma last_best_keep cs best c s :
  last_best score cs best → score c = Ok (Some s) → ¬ (s >= best.1)%Z →
  last_best score (cs ++ [c]) best.
Proof.
  unfold last_best. destruct best as [bs [p|]]; simpl.
  - intros (pre & c0 & post & -> & -> & Hc0 & Hpre & Hpost) Hc Hlt.
    exists pre, c0, (post ++ [c]). split_and!; [by rewrite <- app_assoc|done..|].
    intros q s' [Hq|Hq%list_elem_of_singleton]%elem_of_app Hs'; [by eapply Hpost|].
    subst q. rewrite Hc in Hs'. injection Hs' as <-. lia.
  - intros [-> _] Hc%score_nonneg Hlt. lia.
Qed.
End last_best.

(** An invariant indexed by the part of the list already traversed. *)
Lemma for_each_prefix {A S : Type} (I : list A → S → Prop) (xs : list A)
    (body : A → S → result S) (s s' : S) :
  I [] s →
  (∀ pre x s1 s2, I pre s1 → x ∈ xs → body x s1 = Ok s2 → I (pre ++ [x]) s2) →
  for_each xs body s = Ok s' → I xs s'.
Proof.
  intros Hnil Hstep.
  enough (∀ pre, (∀ x, x ∈ xs → x ∈ xs) → I pre s →
            for_each xs body s = Ok s' → I (pre ++ xs) s') as Hgen
    by (apply (Hgen []); auto).
  clear Hnil. revert s Hstep.
  induction xs as [|x xs IH]; intros s Hstep pre _ Hpre Hrun; simpl in Hrun.
  - injection Hrun as <-. by rewrite app_nil_r.
  - inv_bind Hrun. rewrite cons_middle, app_assoc.
    eapply IH; [|done| |done].
    + intros pre' y s1 s2 Hs1 Hy. apply Hstep; [done|]. by right.
    + eapply Hstep; [done| |done]. by left.
Qed.

Section find_best_placement.
Context (g : grid) (w : word) (wl : list word).

Let score := candidate_score g w wl.

Lemma candidate_score_nonneg c s : score c = Ok (Some s) → (0 ≤ s)%Z.
Proof.
  unfold score, candidate_score. intros Hs. inv_bind Hs. inv_bind Hs.
  case_bool_decide; [|done]. by eapply is_valid_placement_nonneg.
Qed.

Lemma try_direction_last_best cs best best' i row col d :
  last_best score cs best →
  score (i, row, col, d)
    = is_valid_placement g w (Z.of_nat i) (Z.of_nat row) (Z.of_nat col) d wl →
  try_direction g w (Z.of_nat i) (Z.of_nat row) (Z.of_nat col) d wl best
    = Ok best' →
  last_best score (cs ++ [(i, row, col, d)]) best'.
Proof.
  intros Hb Hscore Htry. unfold try_direction in Htry. inv_bind Htry.
  rewrite Ea in Hscore. destruct a as [s|].
  - case_bool_decide as Hge; injection Htry as <-.
    + by apply (last_best_take score cs best (i, row, col, d) s).
    + by eapply last_best_keep; [apply candidate_score_nonneg|..].
  - injection Htry as <-. by apply last_best_skip.
Qed.

Lemma scan_cell_last_best cs best best' i letter row col :
  py_get w i = Ok letter →
  last_best score cs best →
  scan_cell g w wl i letter row col best = Ok best' →
  last_best score (cs ++ [(i, row, col, Horiz); (i, row, col, Vert)]) best'.
Proof.
  intros Hletter Hb Hcell. unfold scan_cell in Hcell. inv_bind Hcell.
  assert (∀ d, score (i, row, col, d) =
            if bool_decide (letter = a) then
              is_valid_placement g w (Z.of_nat i) (Z.of_nat row)
                (Z.of_nat col) d wl
            else Ok None) as Hscore.
  { intros d. unfold score, candidate_score. simpl.
    by rewrite Hletter, Ea. }
  change [(i, row, col, Horiz); (i, row, col, Vert)]
    with ([(i, row, col, Horiz)] ++ [(i, row, col, Vert)]).
  rewrite app_assoc.
  case_bool_decide as Heq.
  - inv_bind Hcell.
    eapply try_direction_last_best; [|by rewrite Hscore|done].
    eapply try_direction_last_best; [done|by rewrite Hscore|done].
  - injection Hcell as <-.
    apply last_best_skip; [|by rewrite Hscore].
    apply last_best_skip; [done|by rewrite Hscore].
Qed.

Lemma scan_letter_last_best cs best best' i :
  last_best score cs best →
  scan_letter g w wl i best = Ok best' →
  last_best score
    (cs ++ (row ← seq 0 (length g); col ← seq 0 (length g);
            [(i, row, col, Horiz); (i, row, col, Vert)])) best'.
Proof.
  intros Hb Hl. unfold scan_letter in Hl. inv_bind Hl.
  revert Hl. apply (for_each_prefix (λ rows b, last_best score
    (cs ++ (row ← rows; col ← seq 0 (length g);
            [(i, row, col, Horiz); (i, row, col, Vert)])) b)).
  { by rewrite app_nil_r. }
  intros rows row b1 b2 Hb1 _.
  rewrite bind_app, bind_singleton, app_assoc.
  apply (for_each_prefix (λ cols b, last_best score
    ((cs ++ (row ← rows; col ← seq 0 (length g);
             [(i, row, col, Horiz); (i, row, col, Vert)]))
     ++ (col ← cols; [(i, row, col, Horiz); (i, row, col, Vert)])) b)).
  { by rewrite app_nil_r. }
  intros cols col b3 b4 Hb3 _ Hcell.
  rewrite bind_app, bind_singleton, app_assoc.
  by eapply scan_cell_last_best.
Qed.

Lemma find_best_placement_last_best r :
  find_best_placement w g wl = Ok r →
  ∃ bs, last_best score (scan_order w (length g)) (bs, r).
Proof.
  unfold find_best_placement. intros Hf. inv_bind Hf. injection Hf as <-.
  destruct a as [bs r]. exists bs. simpl. revert Ea.
  apply (for_each_prefix (λ idxs b, last_best score
    (i ← idxs; row ← seq 0 (length g); col ← seq 0 (length g);
     [(i, row, col, Horiz); (i, row, col, Vert)]) b)).
  { split; [done|]. by intros c ?%elem_of_nil. }
  intros idxs i b1 b2 Hb1 _ Hl. rewrite bind_app, bind_singleton.
  by eapply scan_letter_last_best.
Qed.

Lemma find_best_placement_is_Ok n :
  square n g → wl ≠ [] → is_Ok (find_best_placement w g wl).
Proof.
  intros Hsq Hwl. unfold find_best_placement.
  destruct (for_each_inv (λ _, True) (λ i, i < length w)
              (seq 0 (length w)) (scan_letter g w wl) ((-1)%Z, None))
    as (b & -> & _); [| |done|by eexists].
  { apply Forall_forall. intros i Hi%elem_of_seq. lia. }
  intros i b Hi _. unfold scan_letter.
  destruct (lookup_lt_is_Some_2 w i Hi) as [letter Hletter].
  apply py_get_Ok in Hletter as ->. simpl.
  destruct Hsq as [Hlen Hrows]. rewrite Hlen.
  apply for_each_inv with (P := λ row, row < n); [|
    |done].
  { apply Forall_forall. intros row Hrow%elem_of_seq. lia. }
  intros row b1 Hrow _.
  apply for_each_inv with (P := λ col, col < n); [| |done].
  { apply Forall_forall. intros col Hcol%elem_of_seq. lia. }
  intros col b2 Hcol _. unfold scan_cell.
  destruct (grid_get_square n g (Z.of_nat row) (Z.of_nat col))
    as [c ->]; [done|lia|lia|]. simpl.
  assert (∀ d b, is_Ok (try_direction g w (Z.of_nat i) (Z.of_nat row)
                          (Z.of_nat col) d wl b)) as Htry.
  { intros d b'. unfold try_direction.
    destruct (is_valid_placement_is_Ok n g wl (conj Hlen Hrows) Hwl w
                (Z.of_nat i) (Z.of_nat row) (Z.of_nat col) d)
      as [[s|] ->]; [lia|lia| |]; simpl.
    - case_bool_decide; by eexists.
    - by eexists. }
  case_bool_decide; [|by eexists].
  destruct (Htry Horiz b2) as [b3 ->]. simpl.
  destruct (Htry Vert b3) as [b4 ->]. by eexists.
Qed.
End find_best_placement.

(** A position returned by the search was accepted by the validator, and its
    anchor cell already holds the anchored letter of the word. *)
Lemma find_best_placement_Some (g : grid) (w : word) (wl : list word)
    (row col letter_idx : Z) (d : direction) :
  find_best_placement w g wl = Ok (Some (row, col, letter_idx, d)) →
  ∃ (i : nat) (letter : ascii) (s : Z),
    letter_idx = Z.of_nat i
    ∧ w !! i = Some letter
    ∧ grid_get g row col = Ok letter
    ∧ is_valid_placement g w letter_idx row col d wl = Ok (Some s).
Proof.
  intros (bs & Hb)%find_best_placement_last_best.
  destruct Hb as (pre & [[[i r] c] d'] & post & _ & Hp & Hscore & _).
  unfold to_position in Hp. simpl in Hp, Hscore. injection Hp as -> -> -> ->.
  unfold candidate_score in Hscore. simpl in Hscore.
  apply bind_Ok in Hscore as (letter & Hl%py_get_Ok & Hscore).
  apply bind_Ok in Hscore as (x & Hx & Hscore).
  case_bool_decide as Heq; [|done]. subst x.
  by exists i, letter, bs.
Qed.

(** ** build_crossword *)

Section build.
Context (n : nat) (wl : list word).
Hypothesis Hwl : wl ≠ [].

Lemma place_first_is_Ok g first draw :
  square n g → 0 < n → length first ≤ n →
  is_Ok (place_first g first ∅ draw).
Proof.
  intros Hsq Hn Hlen. unfold place_first, randint0.
  rewrite (proj1 Hsq). rewrite bool_decide_eq_false_2 by lia.
  pose proof (Nat.mod_upper_bound draw.2 n ltac:(lia)) as Hmod.
  destruct draw.1; cbn [mbind result_bind];
    apply (place_word_is_Ok n); try done; intros i Hi; simpl; lia.
Qed.

Lemma place_first_spec g first draw st :
  square n g → wl !! 0 = Some first →
  place_first g first ∅ draw = Ok st →
  build_shape n wl st ∧ build_reads st
  ∧ ∃ d start, st.2 = {[1 := (first, start, d)]}.
Proof.
  intros Hsq Hfirst Hp. unfold place_first in Hp. destruct st as [g' pl'].
  assert (∃ row col d, place_word g first 0 row col d ∅ 1 = Ok (g', pl'))
    as (row & col & d & Hpw).
  { destruct draw.1; inv_bind Hp; eauto. }
  destruct (place_word_spec _ _ _ _ _ _ _ _ _ _ Hpw) as (-> & Hr & _ & Hsq').
  split_and!.
  - split; [by apply Hsq'|]. simpl. intros k w pos d' Hk.
    apply lookup_insert_Some in Hk as [[<- [= <- <- <-]]|[_ ?]]; [|done].
    done.
  - intros k w pos d' Hk. simpl in *.
    apply lookup_insert_Some in Hk as [[<- [= <- <- <-]]|[_ ?]]; [|done].
    done.
  - by eexists _, _.
Qed.

Lemma build_body_is_Ok words i st :
  square n st.1 → i < length words →
  is_Ok (build_body wl words i st).
Proof.
  intros Hsq Hi. unfold build_body.
  destruct (lookup_lt_is_Some_2 words i Hi) as [w Hw].
  apply py_get_Ok in Hw as ->. simpl.
  destruct (find_best_placement_is_Ok st.1 w wl n Hsq Hwl) as [p Hp].
  rewrite Hp. simpl. destruct p as [[[[row col] li] d]|]; [|by eexists].
  apply find_best_placement_Some in Hp as (j & letter & s & -> & _ & _ & Hv).
  apply is_valid_placement_fits in Hv.
  apply (place_word_is_Ok n); [done|]. intros k Hk.
  by eapply fits_in_range.
Qed.

Lemma build_body_shape i st st' :
  build_shape n wl st → build_body wl (drop 1 wl) i st = Ok st' →
  build_shape n wl st'.
Proof.
  intros [Hsq Hkeys] Hb. unfold build_body in Hb.
  apply bind_Ok in Hb as (w & Hw%py_get_Ok & Hb). inv_bind Hb.
  destruct a as [[[[row col] li] d]|]; [|by injection Hb as <-].
  destruct st' as [g' pl'].
  destruct (place_word_spec _ _ _ _ _ _ _ _ _ _ Hb) as (-> & _ & _ & Hsq').
  split; [by apply Hsq'|]. simpl. intros k w' pos d' Hk.
  apply lookup_insert_Some in Hk as [[<- [= <- <- <-]]|[_ Hk]].
  - split; [lia|]. rewrite lookup_drop in Hw.
    by replace (i + 2 - 1) with (1 + i) by lia.
  - by eapply Hkeys.
Qed.

Lemma build_body_reads i st st' :
  (∀ w, w ∈ wl → blank ∉ w) →
  build_shape n wl st → build_reads st →
  build_body wl (drop 1 wl) i st = Ok st' →
  build_reads st'.
Proof.
  intros Hnb [Hsq Hkeys] Hreads Hb. unfold build_body in Hb.
  apply bind_Ok in Hb as (w & Hw%py_get_Ok & Hb).
  apply bind_Ok in Hb as (p & Hp & Hb).
  destruct p as [[[[row col] li] d]|]; [|by injection Hb as <-].
  destruct st' as [g' pl'].
  apply find_best_placement_Some in Hp as (j & letter & s & -> & _ & _ & Hv).
  apply is_valid_placement_fits in Hv.
  pose proof (place_word_keeps _ _ _ _ _ _ _ _ _ _ Hv Hb) as Hkeep.
  destruct (place_word_spec _ _ _ _ _ _ _ _ _ _ Hb) as (-> & Hr & _ & _).
  intros k w' pos d' Hk. simpl in *.
  apply lookup_insert_Some in Hk as [[<- [= <- <- <-]]|[_ Hk]]; [done|].
  intros m wm Hwm. apply Hkeep; [by eapply Hreads|].
  intros ->. destruct (Hkeys _ _ _ _ Hk) as [_ Hin].
  apply (Hnb w'); [by eapply list_elem_of_lookup_2|].
  by eapply list_elem_of_lookup_2.
Qed.

Lemma build_prefix_is_Ok k g draw :
  square n g → 0 < n →
  (∀ first, wl !! 0 = Some first → length first ≤ n) →
  k ≤ length (drop 1 wl) →
  ∃ st, build_prefix k g wl draw = Ok st ∧ build_shape n wl st.
Proof.
  intros Hsq Hn Hfirst Hk. unfold build_prefix.
  destruct (wl !! 0) as [first|] eqn:Hw0;
    [|by destruct wl].
  rewrite (proj2 (py_get_Ok wl 0 first) Hw0). cbn [mbind result_bind].
  destruct (place_first_is_Ok g first draw) as [st Hst];
    [done|done|by apply Hfirst|].
  rewrite Hst. cbn [mbind result_bind].
  destruct (place_first_spec g first draw st) as (Hshape & _); [done..|].
  apply for_each_inv with (P := λ i, i < length (drop 1 wl)); [| |done].
  { apply Forall_forall. intros i Hi%elem_of_seq. lia. }
  intros i st1 Hi Hst1.
  destruct (build_body_is_Ok (drop 1 wl) i st1 (proj1 Hst1) Hi) as [st2 Hst2].
  exists st2. split; [done|]. by eapply build_body_shape.
Qed.

Lemma build_prefix_spec k g draw st :
  square n g →
  build_prefix k g wl draw = Ok st →
  build_shape n wl st ∧ ((∀ w, w ∈ wl → blank ∉ w) → build_reads st).
Proof.
  intros Hsq Hb. unfold build_prefix in Hb.
  apply bind_Ok in Hb as (first & Hfirst%py_get_Ok & Hb).
  apply bind_Ok in Hb as (st0 & Hst0 & Hb).
  destruct (place_first_spec g first draw st0) as (Hshape & Hreads & _);
    [done..|].
  split.
  - revert Hb. apply for_each_keeps with (P := λ _, True); [|
      |done].
    { by apply Forall_forall. }
    intros i st1 st2 _. apply build_body_shape.
  - intros Hnb.
    enough (build_shape n wl st ∧ build_reads st) as [_ ?] by done.
    revert Hb.
    apply (for_each_keeps (λ st, build_shape n wl st ∧ build_reads st)
             (λ _, True)); [by apply Forall_forall| |done].
    intros i st1 st2 _ [Hs1 Hr1] Hbody. split.
    + by eapply build_body_shape.
    + by eapply build_body_reads.
Qed.
End build.

(** ** Reading a placement back *)

Lemma reads_read_cells (g : grid) (w : word) (d : direction) (start : Z * Z) :
  reads g w d start → read_cells g d start (length w) = Ok w.
Proof.
  intros Hreads. unfold read_cells.
  enough (∀ k, k ≤ length w →
    for_each (seq 0 k) (λ i acc,
      c ← grid_get g (span_cell d start.1 start.2 i).1
                     (span_cell d start.1 start.2 i).2;
      Ok (acc ++ [c])) [] = Ok (take k w)) as Hgen.
  { rewrite Hgen by done. by rewrite firstn_all. }
  induction k as [|k IH]; intros Hk; [done|].
  rewrite seq_S, for_each_app, IH by lia. simpl.
  destruct (lookup_lt_is_Some_2 w k) as [wk Hwk]; [lia|].
  rewrite (Hreads k wk Hwk). simpl.
  by rewrite (take_S_r _ _ _ Hwk).
Qed.

(** ** The sorted word list *)

Lemma insert_by_len_perm (w : word) (l : list word) :
  insert_by_len w l ≡ₚ w :: l.
Proof.
  induction l as [|y l IH]; simpl; [done|].
  destruct (length y <=? length w); [done|].
  rewrite IH. apply Permutation_swap.
Qed.

Lemma sorted_by_len_perm (wl : list word) : sorted_by_len wl ≡ₚ wl.
Proof.
  induction wl as [|w wl IH]; simpl; [done|].
  by rewrite insert_by_len_perm, IH.
Qed.

Lemma sorted_by_len_length (wl : list word) :
  length (sorted_by_len wl) = length wl.
Proof. apply Permutation_length, sorted_by_len_perm. Qed.

Lemma sorted_by_len_elem_of (wl : list word) (w : word) :
  w ∈ sorted_by_len wl ↔ w ∈ wl.
Proof. by rewrite sorted_by_len_perm. Qed.

Lemma sorted_by_len_nonempty (wl : list word) :
  wl ≠ [] → sorted_by_len wl ≠ [].
Proof.
  intros Hne Hnil. apply Hne.
  apply Permutation_nil_r. rewrite <- Hnil. symmetry. apply sorted_by_len_perm.
Qed.

(** ** The smallest key *)

Lemma foldr_min_spec (k : nat) (ks : list nat) :
  foldr Nat.min k ks ∈ k :: ks ∧ ∀ k', k' ∈ k :: ks → foldr Nat.min k ks ≤ k'.
Proof.
  induction ks as [|k0 ks [IHin IHle]]; simpl.
  - split; [by left|]. intros k' ->%list_elem_of_singleton. done.
  - split.
    + destruct (Nat.min_spec k0 (foldr Nat.min k ks)) as [[_ ->]|[_ ->]].
      * right. by left.
      * apply elem_of_cons in IHin as [->|?]; [by left|]. right. by right.
    + intros k' [->|[->|Hk']%elem_of_cons]%elem_of_cons.
      * etrans; [apply Nat.le_min_r|]. apply IHle. by left.
      * apply Nat.le_min_l.
      * etrans; [apply Nat.le_min_r|]. apply IHle. by right.
Qed.

Lemma min_key_None {A : Type} (m : gmap nat A) : min_key m = None → m = ∅.
Proof.
  unfold min_key. destruct (map_to_list m) as [|[k v] l] eqn:Hl; [|done].
  intros _. by apply map_to_list_empty_iff.
Qed.

Lemma min_key_Some {A : Type} (m : gmap nat A) (k : nat) :
  min_key m = Some k →
  is_Some (m !! k) ∧ ∀ k', is_Some (m !! k') → k ≤ k'.
Proof.
  unfold min_key.
  assert (∀ k', k' ∈ (map_to_list m).*1 ↔ is_Some (m !! k')) as Hkeys.
  { intros k'. rewrite list_elem_of_fmap. split.
    - intros ([k'' v] & -> & Hin%elem_of_map_to_list). by exists v.
    - intros [v Hv]. exists (k', v). by rewrite elem_of_map_to_list. }
  destruct ((map_to_list m).*1) as [|k0 ks]; [done|].
  intros [= <-]. destruct (foldr_min_spec k0 ks) as [Hin Hle]. split.
  - by apply Hkeys.
  - intros k' Hk'. by apply Hle, Hkeys.
Qed.

(** ** count_blanks *)

Lemma count_blanks_is_Ok (n : nat) (g : grid) :
  square n g → is_Ok (count_blanks g).
Proof.
  intros Hsq. unfold count_blanks. rewrite (proj1 Hsq).
  destruct (for_each_inv (λ _ : nat, True) (λ row, row < n) (seq 0 n)
    (λ row count, for_each (seq 0 n) (λ col count,
       c ← grid_get g (Z.of_nat row) (Z.of_nat col);
       Ok (if bool_decide (c = blank) then count + 1 else count)) count) 0)
    as (b & -> & _); [| |done|by eexists].
  { apply Forall_forall. intros row Hrow%elem_of_seq. lia. }
  intros row count Hrow _.
  apply for_each_inv with (P := λ col, col < n); [| |done].
  { apply Forall_forall. intros col Hcol%elem_of_seq. lia. }
  intros col count' Hcol _.
  destruct (grid_get_square n g (Z.of_nat row) (Z.of_nat col)) as [c ->];
    [done|lia|lia|].
  by eexists.
Qed.

(** ** The attempt loop of generate *)

Section driver.
Context (wl : list word) (rnd : nat → direction * nat).

Let wls := sorted_by_len wl.

Lemma state_at_S i :
  state_at (S i) wl rnd = state_at i wl rnd ≫= attempt wls rnd i.
Proof.
  unfold state_at. fold wls. destruct (py_get wls 0) as [first|]; [|done].
  cbn [mbind result_bind]. rewrite seq_S, for_each_app.
  destruct (for_each (seq 0 i) _ _) as [st|]; simpl; [|done].
  by destruct (attempt wls rnd i st).
Qed.

Lemma state_at_le i j st :
  i ≤ j → state_at j wl rnd = Ok st → is_Ok (state_at i wl rnd).
Proof.
  intros Hij. revert st. induction Hij as [|j Hij IH]; intros st Hst.
  - by eexists.
  - rewrite state_at_S in Hst. inv_bind Hst. by eapply IH.
Qed.

Lemma attempt_spec i st st' :
  attempt wls rnd i st = Ok st' →
  ∃ g pl,
    build_crossword (init_grid (grid_size st)) wls (rnd i) = Ok (g, pl)
    ∧ if bool_decide (size pl = length wls) then
        ∃ b, count_blanks g = Ok b
             ∧ st' = Driver (grid_size st)
                       (<[b := (g, pl)]> (candidate_grids st))
      else
        st' = if bool_decide (i mod 5 = 0)
              then Driver (grid_size st + 1) (candidate_grids st)
              else st.
Proof.
  unfold attempt. intros Ha. inv_bind Ha. destruct a as [g pl].
  exists g, pl. split; [done|].
  case_bool_decide.
  - inv_bind Ha. injection Ha as <-. by exists a.
  - case_bool_decide; by injection Ha as <-.
Qed.

Lemma attempt_size i st st' :
  attempt wls rnd i st = Ok st' → grid_size st ≤ grid_size st'.
Proof.
  intros (g & pl & _ & Hcase)%attempt_spec.
  case_bool_decide.
  - destruct Hcase as (b & _ & ->). done.
  - subst st'. case_bool_decide; simpl; lia.
Qed.

Lemma attempt_keys i st st' k :
  attempt wls rnd i st = Ok st' →
  is_Some (candidate_grids st !! k) → is_Some (candidate_grids st' !! k).
Proof.
  intros (g & pl & _ & Hcase)%attempt_spec Hk.
  case_bool_decide.
  - destruct Hcase as (b & _ & ->). simpl.
    rewrite lookup_insert_is_Some'. by right.
  - subst st'. by case_bool_decide.
Qed.

Lemma attempt_is_Ok i st first :
  wls !! 0 = Some first → 0 < length first ≤ grid_size st →
  is_Ok (attempt wls rnd i st).
Proof.
  intros Hfirst Hlen. unfold attempt.
  assert (wls ≠ []) as Hne by (by intros Hnil; rewrite Hnil in Hfirst).
  destruct (build_prefix_is_Ok (grid_size st) wls Hne
              (length (drop 1 wls)) (init_grid (grid_size st)) (rnd i))
    as ([g pl] & Hb & [Hsq _]);
    [apply init_grid_square|lia| |done|].
  { intros first' Hf'. rewrite Hfirst in Hf'. injection Hf' as <-. lia. }
  unfold build_crossword. rewrite Hb. cbn [mbind result_bind].
  simpl in Hsq. case_bool_decide.
  - destruct (count_blanks_is_Ok _ _ Hsq) as [b ->]. by eexists.
  - case_bool_decide; by eexists.
Qed.

Lemma state_at_is_Ok i :
  wl ≠ [] → (∀ w, w ∈ wl → w ≠ []) →
  ∃ st first, state_at i wl rnd = Ok st
              ∧ wls !! 0 = Some first
              ∧ 0 < length first ≤ grid_size st.
Proof.
  intros Hne Hwords.
  destruct wls as [|first ws] eqn:Hwls;
    [by apply sorted_by_len_nonempty in Hne|].
  assert (0 < length first) as Hfirst.
  { assert (first ∈ wl) as Hin%Hwords.
    { apply sorted_by_len_elem_of. fold wls. rewrite Hwls. by left. }
    destruct first; [done|simpl; lia]. }
  induction i as [|i (st & first' & Hst & [= <-] & Hlen)].
  - exists (Driver (length first) ∅), first. unfold state_at. fold wls.
    rewrite Hwls. simpl. split_and!; [done|done|lia|lia].
  - rewrite state_at_S, Hst. cbn [mbind result_bind].
    destruct (attempt_is_Ok i st first) as [st' Hst'];
      [by rewrite Hwls|done|].
    exists st', first. split_and!; [done|done|lia|].
    apply attempt_size in Hst'. lia.
Qed.

(** Every recorded candidate is keyed by its number of blank cells and was
    built, complete, by an earlier attempt. *)
Lemma state_at_candidate i st k g pl :
  state_at i wl rnd = Ok st → candidate_grids st !! k = Some (g, pl) →
  count_blanks g = Ok k
  ∧ ∃ j, j < i ∧ built_at j wl rnd = Ok ((g, pl), true).
Proof.
  revert st. induction i as [|i IH]; intros st Hst Hk.
  - unfold state_at in Hst. inv_bind Hst. by injection Hst as <-.
  - rewrite state_at_S in Hst.
    apply bind_Ok in Hst as (st0 & Hst0 & Ha).
    apply attempt_spec in Ha as (g' & pl' & Hb & Hcase).
    assert (candidate_grids st0 !! k = Some (g, pl) →
            count_blanks g = Ok k
            ∧ ∃ j, j < S i ∧ built_at j wl rnd = Ok ((g, pl), true)) as Hold.
    { intros Hk0. destruct (IH st0 Hst0 Hk0) as (Hc & j & Hj & Hbuilt).
      split; [done|]. exists j. split; [lia|done]. }
    case_bool_decide as Hcomplete.
    + destruct Hcase as (b & Hcount & ->). simpl in Hk.
      apply lookup_insert_Some in Hk as [[<- [= <- <-]]|[_ Hk]]; [|by auto].
      split; [done|]. exists i. split; [lia|].
      unfold built_at. rewrite Hst0. cbn [mbind result_bind].
      fold wls. rewrite Hb. cbn [mbind result_bind]. simpl.
      by rewrite bool_decide_eq_true_2.
    + subst st. by case_bool_decide; auto.
Qed.

Lemma state_at_keys i j st st' k :
  i ≤ j → state_at i wl rnd = Ok st → state_at j wl rnd = Ok st' →
  is_Some (candidate_grids st !! k) → is_Some (candidate_grids st' !! k).
Proof.
  intros Hij Hst. revert st'. induction Hij as [|j Hij IH]; intros st' Hst' Hk.
  - rewrite Hst in Hst'. by injection Hst' as <-.
  - rewrite state_at_S in Hst'. inv_bind Hst'.
    eapply attempt_keys; [done|]. by eapply IH.
Qed.
End driver.

(** * The claims *)

(** C8: for a non-empty list of non-empty words, [generate] ends without an
    exception, whatever the random draws; as every grid subscript of the
    embedding is checked against [0, size) and answers [OutOfBounds]
    otherwise, every subscript performed was inside the grid. *)
Theorem generate_in_bounds (wl : list word) (rnd : nat → direction * nat) :
  wl ≠ [] → (∀ w, w ∈ wl → w ≠ []) →
  ∃ r, generate wl rnd = Ok r.
Proof.
  intros Hne Hwords. unfold generate.
  destruct (state_at_is_Ok wl rnd max_iter Hne Hwords)
    as (st & first & -> & _). cbn [mbind result_bind].
  destruct (min_key (candidate_grids st)) as [k|] eqn:Hmin; [|by eexists].
  apply min_key_Some in Hmin as [[c ->] _]. by eexists.
Qed.

Lemma generate_in_bounds_witness :
  ∃ r, generate [str "ab"] rnd_first_row = Ok r.
Proof.
  apply generate_in_bounds.
  - discriminate.
  - intros w Hw. apply list_elem_of_singleton in Hw. subst w. discriminate.
Defined.

(** C3: on the empty list [generate] raises [IndexError] at
    [wordlist_sorted[0]]; it does not reach the branch that reports that no
    crossword is possible. *)
Theorem generate_empty_raises (rnd : nat → direction * nat) :
  generate [] rnd = Err IndexError.
Proof. reflexivity. Qed.

(** The returned grid has the smallest key among the complete attempts. *)
Lemma generate_min_count (wl : list word) (rnd : nat → direction * nat)
    (g g' : grid) (pl pl' : gmap nat placement) (i : nat) :
  generate wl rnd = Ok (Some (g, pl)) →
  i < max_iter →
  built_at i wl rnd = Ok ((g', pl'), true) →
  ∃ b b', count_blanks g = Ok b ∧ count_blanks g' = Ok b' ∧ b ≤ b'.
Proof.
  unfold generate. intros Hgen Hi Hbuilt.
  apply bind_Ok in Hgen as (st & Hst & Hgen).
  destruct (min_key (candidate_grids st)) as [k|] eqn:Hmin; [|done].
  destruct (candidate_grids st !! k) as [c|] eqn:Hk; [|done].
  injection Hgen as ->.
  apply min_key_Some in Hmin as [_ Hle].
  destruct (state_at_candidate _ _ _ _ _ _ _ Hst Hk) as [Hcount _].
  unfold built_at in Hbuilt.
  apply bind_Ok in Hbuilt as (sti & Hsti & Hbuilt).
  apply bind_Ok in Hbuilt as ([g0 pl0] & Hbuild & [= -> -> Hcomplete]).
  destruct (state_at_le wl rnd (S i) max_iter st) as [st' Hst']; [lia|done|].
  pose proof Hst' as Hstep. rewrite state_at_S, Hsti in Hstep.
  cbn [mbind result_bind] in Hstep.
  apply attempt_spec in Hstep as (g0 & pl0 & Hbuild' & Hcase).
  rewrite Hbuild in Hbuild'. injection Hbuild' as <- <-.
  simpl in Hcomplete. rewrite Hcomplete in Hcase.
  destruct Hcase as (b' & Hcount' & ->).
  exists k, b'. split_and!; [done..|].
  apply Hle. eapply (state_at_keys wl rnd (S i) max_iter); [lia|done..|].
  simpl. rewrite lookup_insert_eq. by eexists.
Qed.



(** C7: on a square grid and for a non-empty word list,
    [find_best_placement] returns the candidate (a
    cell holding the letter [w[i]], with an orientation the validator
    accepts) of maximal overlap count, and among those of maximal count the
    last one of the scan: no candidate scanned before it has a larger count
    and every candidate scanned after it has a strictly smaller one. It
    reports no position exactly when the validator accepts no candidate. *)
Theorem find_best_placement_last_max (n : nat) (g : grid) (w : word)
    (wl : list word) :
  square n g → wl ≠ [] →
  ∃ r, find_best_placement w g wl = Ok r
    ∧ match r with
      | None =>
          ∀ c, c ∈ scan_order w (length g) → candidate_score g w wl c = Ok None
      | Some p =>
          ∃ pre c post s,
            scan_order w (length g) = pre ++ c :: post
            ∧ p = to_position c
            ∧ candidate_score g w wl c = Ok (Some s)
            ∧ (∀ q s', q ∈ pre →
                 candidate_score g w wl q = Ok (Some s') → (s' ≤ s)%Z)
            ∧ (∀ q s', q ∈ post →
                 candidate_score g w wl q = Ok (Some s') → (s' < s)%Z)
      end.
Proof.
  intros Hsq Hwl.
  destruct (find_best_placement_is_Ok g w wl n Hsq Hwl) as [r Hr].
  exists r. split; [done|].
  apply find_best_placement_last_best in Hr as [bs Hb].
  unfold last_best in Hb. destruct r as [p|]; simpl in Hb.
  - destruct Hb as (pre & c & post & ?). by exists pre, c, post, bs.
  - by destruct Hb.
Qed.

Lemma find_best_placement_last_max_witness :
  ∃ r, find_best_placement (str "a") tie_grid [str "a"] = Ok r
    ∧ match r with
      | None =>
          ∀ c, c ∈ scan_order (str "a") (length tie_grid) →
               candidate_score tie_grid (str "a") [str "a"] c = Ok None
      | Some p =>
          ∃ pre c post s,
            scan_order (str "a") (length tie_grid) = pre ++ c :: post
            ∧ p = to_position c
            ∧ candidate_score tie_grid (str "a") [str "a"] c = Ok (Some s)
            ∧ (∀ q s', q ∈ pre →
                 candidate_score tie_grid (str "a") [str "a"] q = Ok (Some s')
                 → (s' ≤ s)%Z)
            ∧ (∀ q s', q ∈ post →
                 candidate_score tie_grid (str "a") [str "a"] q = Ok (Some s')
                 → (s' < s)%Z)
      end.
Proof.
  apply (find_best_placement_last_max 3).
  - split; [reflexivity|]. by repeat constructor.
  - discriminate.
Defined.

Example scan_order_ab :
  scan_order (str "ab") 1
  = [(0, 0, 0, Horiz); (0, 0, 0, Vert); (1, 0, 0, Horiz); (1, 0, 0, Vert)].
Proof. reflexivity. Qed.

Example tie_scores :
  candidate_score tie_grid (str "a") [str "a"] (0, 0, 0, Horiz) = Ok (Some 1%Z)
  ∧ candidate_score tie_grid (str "a") [str "a"] (0, 2, 2, Horiz) = Ok (Some 1%Z)
  ∧ candidate_score tie_grid (str "a") [str "a"] (0, 2, 2, Vert) = Ok (Some 1%Z).
Proof. split_and!; vm_compute; reflexivity. Qed.

(** On [tie_grid] four candidates have one overlap; the last scanned, the
    vertical one on the cell (2, 2), is returned. *)
Example find_best_placement_tie :
  find_best_placement (str "a") tie_grid [str "a"]
  = Ok (Some (2%Z, 2%Z, 0%Z, Vert)).
Proof. vm_compute. reflexivity. Qed.

(** A round of the builder's loop either leaves the state as it is or
    places the word with its letter [j] on a cell that holds that letter. *)
Lemma build_body_overlap (wl words : list word) (i : nat)
    (st st' : grid * gmap nat placement) :
  build_body wl words i st = Ok st' →
  st' = st
  ∨ ∃ w row col (j : nat) d letter s,
      words !! i = Some w
      ∧ place_word st.1 w (Z.of_nat j) row col d st.2 (i + 2) = Ok st'
      ∧ w !! j = Some letter
      ∧ grid_get st.1 row col = Ok letter
      ∧ span_cell d (span_start d row col (Z.of_nat j)).1
                    (span_start d row col (Z.of_nat j)).2 j = (row, col)
      ∧ is_valid_placement st.1 w (Z.of_nat j) row col d wl = Ok (Some s)
      ∧ (1 ≤ s)%Z
      ∧ (blank ∉ w → letter ≠ blank).
Proof.
  unfold build_body. intros Hb.
  apply bind_Ok in Hb as (w & Hw%py_get_Ok & Hb).
  apply bind_Ok in Hb as (p & Hp & Hb).
  destruct p as [[[[row col] li] d]|]; [|left; by injection Hb].
  right.
  apply find_best_placement_Some in Hp as (j & letter & s & -> & Hj & Hget & Hv).
  exists w, row, col, j, d, letter, s. split_and!; [done..| |done| |].
  - destruct d; simpl; f_equal; lia.
  - by eapply is_valid_placement_anchor.
  - intros Hnb ->. apply Hnb. by eapply list_elem_of_lookup_2.
Qed.

(** ** A single word *)

Lemma place_first_start (g : grid) (first : word) (draw : direction * nat)
    (st : grid * gmap nat placement) :
  place_first g first ∅ draw = Ok st →
  ∃ r c d, st.2 = {[1 := (first, (r, c), d)]}
           ∧ reads st.1 first d (r, c)
           ∧ ((d = Horiz ∧ c = 0%Z) ∨ (d = Vert ∧ r = 0%Z)).
Proof.
  unfold place_first. intros Hp. destruct st as [g' pl'].
  destruct draw.1; inv_bind Hp;
    destruct (place_word_spec _ _ _ _ _ _ _ _ _ _ Hp) as (-> & Hr & _).
  - exists a, 0%Z, Horiz. split_and!; [done|done|by left].
  - exists 0%Z, a, Vert. split_and!; [done|done|by right].
Qed.

Section single_word.
Context (w : word) (rnd : nat → direction * nat).
Hypothesis Hw : w ≠ [].

Lemma build_single n draw st :
  build_crossword (init_grid n) [w] draw = Ok st →
  square n st.1
  ∧ ∃ r c d, st.2 = {[1 := (w, (r, c), d)]}
             ∧ reads st.1 w d (r, c)
             ∧ ((d = Horiz ∧ c = 0%Z) ∨ (d = Vert ∧ r = 0%Z)).
Proof.
  intros Hb. split.
  - apply (build_prefix_spec n) in Hb as [[Hsq _] _];
      [done|apply init_grid_square].
  - unfold build_crossword, build_prefix in Hb. simpl in Hb.
    inv_bind Hb. injection Hb as <-. by eapply place_first_start.
Qed.

Lemma single_state i :
  ∃ st, state_at i [w] rnd = Ok st
        ∧ grid_size st = length w
        ∧ (0 < i → candidate_grids st ≠ ∅).
Proof.
  induction i as [|i (st & Hst & Hsize & _)].
  - exists (Driver (length w) ∅). split_and!; [done|done|lia].
  - rewrite state_at_S, Hst. cbn [mbind result_bind].
    destruct (attempt_is_Ok [w] rnd i st w) as [st' Hst'];
      [done|destruct w; [done|simpl in *; lia]|].
    change (sorted_by_len [w]) with [w].
    exists st'. split; [done|].
    apply attempt_spec in Hst' as (g & pl & Hb & Hcase).
    change (sorted_by_len [w]) with [w] in *.
    apply build_single in Hb as [_ (r & c & d & Hpl & _)].
    simpl in Hpl. subst pl.
    rewrite bool_decide_eq_true_2 in Hcase by by rewrite map_size_singleton.
    destruct Hcase as (b & _ & ->). simpl. split; [done|].
    intros _. apply insert_non_empty.
Qed.
End single_word.

(** C9: for a single non-empty word [w] of length [L], [generate] returns an
    [L] by [L] grid; every attempt runs at size [L]; the placement map is
    the single entry of slot 1, horizontal from column 0 or vertical from
    row 0, and the [L] cells of that row or column spell [w]. *)
Theorem generate_single_word (w : word) (rnd : nat → direction * nat) :
  w ≠ [] →
  ∃ g r c d,
    generate [w] rnd = Ok (Some (g, {[1 := (w, (r, c), d)]}))
    ∧ square (length w) g
    ∧ (∀ i, i ≤ max_iter → size_at i [w] rnd = Ok (length w))
    ∧ read_cells g d (r, c) (length w) = Ok w
    ∧ ((d = Horiz ∧ c = 0%Z) ∨ (d = Vert ∧ r = 0%Z)).
Proof.
  intros Hw.
  destruct (single_state w rnd Hw max_iter) as (st & Hst & Hsize & Hne).
  destruct (min_key (candidate_grids st)) as [k|] eqn:Hmin;
    [|apply min_key_None in Hmin; by destruct Hne; [unfold max_iter; lia|]].
  pose proof Hmin as [[[g pl] Hk] _]%min_key_Some.
  destruct (state_at_candidate _ _ _ _ _ _ _ Hst Hk) as (_ & j & _ & Hbuilt).
  unfold built_at in Hbuilt.
  apply bind_Ok in Hbuilt as (stj & Hstj & Hbuilt).
  apply bind_Ok in Hbuilt as ([g0 pl0] & Hbuild & [= -> -> _]).
  destruct (single_state w rnd Hw j) as (stj' & Hstj' & Hsizej & _).
  rewrite Hstj in Hstj'. injection Hstj' as <-. rewrite Hsizej in Hbuild.
  change (sorted_by_len [w]) with [w] in Hbuild.
  apply (build_single w) in Hbuild as [Hsq (r & c & d & Hpl & Hreads & Hstart)].
  simpl in Hsq, Hpl, Hreads. subst pl.
  exists g, r, c, d. split_and!; [|done| |by apply reads_read_cells|done].
  - unfold generate. rewrite Hst. cbn [mbind result_bind].
    by rewrite Hmin, Hk.
  - intros i _. unfold size_at.
    destruct (single_state w rnd Hw i) as (sti & -> & <- & _). done.
Qed.

Lemma generate_single_word_witness :
  ∃ g r c d,
    generate [str "ab"] rnd_first_row
      = Ok (Some (g, {[1 := (str "ab", (r, c), d)]}))
    ∧ square (length (str "ab")) g
    ∧ (∀ i, i ≤ max_iter →
         size_at i [str "ab"] rnd_first_row = Ok (length (str "ab")))
    ∧ read_cells g d (r, c) (length (str "ab")) = Ok (str "ab")
    ∧ ((d = Horiz ∧ c = 0%Z) ∨ (d = Vert ∧ r = 0%Z)).
Proof. apply generate_single_word. discriminate. Defined.

(** C2, as stated: after attempt 0 (0 mod 5 = 0) the grid size would be one
    larger. For the single word ["ab"] attempt 0 is complete and attempt 1
    runs at the same size 2, not at size 3. *)
Lemma size_after_complete_attempt :
  0 mod 5 = 0
  ∧ size_at 0 [str "ab"] rnd_first_row = Ok 2
  ∧ built_at 0 [str "ab"] rnd_first_row = Ok ((ab_grid, ab_placements), true)
  ∧ size_at 1 [str "ab"] rnd_first_row = Ok 2
  ∧ size_at 1 [str "ab"] rnd_first_row ≠ Ok (2 + 1).
Proof. split_and!; [done|vm_compute; reflexivity..|by vm_compute]. Qed.

(** C2, amended: for a non-empty list of non-empty words and an attempt
    index [i < 100] with [i mod 5 = 0], the next attempt runs at a size one
    larger when attempt [i] left a word unplaced, and at the same size when
    attempt [i] produced a complete placement map. *)
Theorem size_schedule (wl : list word) (rnd : nat → direction * nat) (i : nat) :
  wl ≠ [] → (∀ w, w ∈ wl → w ≠ []) →
  i < max_iter → i mod 5 = 0 →
  ∃ n c (complete : bool),
    size_at i wl rnd = Ok n
    ∧ built_at i wl rnd = Ok (c, complete)
    ∧ size_at (S i) wl rnd = Ok (if complete then n else n + 1).
Proof.
  intros Hne Hwords _ Hmod.
  destruct (state_at_is_Ok wl rnd i Hne Hwords) as (st & _ & Hst & _).
  destruct (state_at_is_Ok wl rnd (S i) Hne Hwords) as (st' & _ & Hst' & _).
  pose proof Hst' as Hstep. rewrite state_at_S, Hst in Hstep.
  cbn [mbind result_bind] in Hstep.
  apply attempt_spec in Hstep as (g & pl & Hb & Hcase).
  exists (grid_size st), (g, pl),
    (bool_decide (size pl = length (sorted_by_len wl))).
  unfold size_at, built_at. rewrite Hst, Hst'. cbn [mbind result_bind].
  rewrite Hb. cbn [mbind result_bind]. split_and!; [done..|].
  f_equal. case_bool_decide.
  - by destruct Hcase as (b & _ & ->).
  - subst st'. by rewrite bool_decide_eq_true_2.
Qed.

Lemma size_schedule_witness :
  ∃ n c (complete : bool),
    size_at 0 [str "ab"] rnd_first_row = Ok n
    ∧ built_at 0 [str "ab"] rnd_first_row = Ok (c, complete)
    ∧ size_at 1 [str "ab"] rnd_first_row = Ok (if complete then n else n + 1).
Proof.
  apply size_schedule.
  - discriminate.
  - intros w Hw. apply list_elem_of_singleton in Hw. subst w. discriminate.
  - unfold max_iter. lia.
  - reflexivity.
Defined.

(** C1: four distinct words for which [generate] returns a grid whose row 2
    is the run ["hfei"], which is no word of the list: ["agh"] is placed down
    column 0 beside the start of ["fei"], whose run it lengthens. *)
Theorem generate_orphan_run :
  generate c1_words rnd_first_row = Ok (Some (c1_grid, c1_placements))
  ∧ c1_grid !! 2 = Some (str "hfei")
  ∧ runs (str "hfei") = [str "hfei"]
  ∧ ¬ (str "hfei" ∈ c1_words)
  ∧ NoDup c1_words
  ∧ no_orphan_runs c1_grid c1_words = false.
Proof.
  split_and!;
    [vm_compute; reflexivity|reflexivity|reflexivity|
    |apply (bool_decide_unpack _); vm_compute; reflexivity|reflexivity].
  intros Hin. by repeat (apply elem_of_cons in Hin as [?|Hin]; [done|]);
    apply elem_of_nil in Hin.
Qed.

(** The step that breaks the invariant: before ["agh"] is placed every run
    is a word, afterwards row 2 is not. *)
Example place_agh_breaks_runs :
  no_orphan_runs [str "abcd"; str "  x "; str " fei"; str "    "] c1_words
    = true
  ∧ find_best_placement (str "agh")
      [str "abcd"; str "  x "; str " fei"; str "    "] c1_words
    = Ok (Some (0%Z, 0%Z, 0%Z, Vert)).
Proof. split; vm_compute; reflexivity. Qed.

(** C4: the column [x a b c] seen from the cell of [c] with the word list
    [["abc"]]: the scan upwards reads the two cells [b] and [a] and stops at
    its bound, short of [x]; the three letters read are a word of the list
    and the answer is [True], although the run of the column is ["xabc"]. *)
Theorem is_adjacent_word_truncated :
  is_adjacent_word c4_grid 3 0 Vert [str "abc"] = Ok true
  ∧ look_up c4_grid 3 0 (seq 1 (3 - 1)) [("c"%char : ascii)] = Ok (str "abc")
  ∧ grid_get c4_grid 0 0 = Ok ("x"%char : ascii)
  ∧ (columns c4_grid) !! 0 = Some (str "xabc ")
  ∧ runs (str "xabc ") = [str "xabc"].
Proof. split_and!; vm_compute; reflexivity. Qed.


(** * Further properties of the generator *)

(** ** Loops over a range *)

Lemma for_each_seq_S {S : Type} (k : nat) (body : nat → S → result S) (s : S) :
  for_each (seq 0 (Datatypes.S k)) body s = for_each (seq 0 k) body s ≫= body k.
Proof.
  rewrite seq_S, for_each_app.
  destruct (for_each (seq 0 k) body s) as [s'|e]; simpl; [|done].
  by destruct (body k s').
Qed.

(** ** count_blanks and init_grid *)

Lemma count_row (g : grid) (row : nat) (r : list ascii) (k count : nat) :
  g !! row = Some r → k ≤ length r →
  for_each (seq 0 k) (λ col count,
    c ← grid_get g (Z.of_nat row) (Z.of_nat col);
    Ok (if bool_decide (c = blank) then count + 1 else count)) count
  = Ok (count + length (filter (λ c, c = blank) (take k r))).
Proof.
  intros Hrow. induction k as [|k IH]; intros Hk.
  - simpl. f_equal. lia.
  - rewrite for_each_seq_S, IH by lia. cbn [mbind result_bind].
    destruct (lookup_lt_is_Some_2 r k) as [x Hx]; [lia|].
    assert (grid_get g (Z.of_nat row) (Z.of_nat k) = Ok x) as ->.
    { apply grid_get_Ok. split_and!; [lia..|].
      unfold cell. rewrite !Nat2Z.id, Hrow. done. }
    cbn [mbind result_bind]. rewrite (take_S_r _ _ _ Hx), filter_app, length_app.
    f_equal. rewrite filter_cons, filter_nil.
    case_bool_decide; case_decide; simpl; try done; lia.
Qed.

Lemma count_rows (n : nat) (g : grid) (k : nat) :
  square n g → k ≤ n →
  for_each (seq 0 k) (λ row count,
    for_each (seq 0 n) (λ col count,
      c ← grid_get g (Z.of_nat row) (Z.of_nat col);
      Ok (if bool_decide (c = blank) then count + 1 else count)) count) 0
  = Ok (blank_cells (take k g)).
Proof.
  intros [Hlen Hrows]. induction k as [|k IH]; intros Hk; [done|].
  rewrite for_each_seq_S, IH by lia. cbn [mbind result_bind].
  destruct (lookup_lt_is_Some_2 g k) as [r Hr]; [lia|].
  rewrite Forall_lookup in Hrows. pose proof (Hrows _ _ Hr) as Hn.
  rewrite (count_row g k r n) by (done || lia).
  rewrite (take_S_r _ _ _ Hr). unfold blank_cells.
  rewrite concat_app, filter_app, length_app. simpl.
  rewrite app_nil_r, <- Hn, firstn_all. done.
Qed.

(** X1: on a square grid [count_blanks] returns the number of cells that
    hold the blank, never more than [n * n]. *)
Theorem count_blanks_counts (n : nat) (g : grid) :
  square n g →
  count_blanks g = Ok (blank_cells g) ∧ blank_cells g ≤ n * n.
Proof.
  intros Hsq. pose proof Hsq as [Hlen Hrows]. split.
  - unfold count_blanks. rewrite Hlen, (count_rows n g n) by done.
    by rewrite <- Hlen, firstn_all.
  - unfold blank_cells. etrans; [apply length_filter|].
    clear Hsq. revert n Hlen Hrows.
    induction g as [|r g IH]; intros n Hlen Hrows; simpl; [lia|].
    rewrite length_app. apply Forall_cons in Hrows as [Hr Hrows].
    assert (length (concat g) ≤ length g * n) as Hg.
    { clear IH Hlen. induction Hrows as [|r' g' Hr' _ IH']; simpl; [lia|].
      rewrite length_app. lia. }
    simpl in Hlen. nia.
Qed.

Lemma count_blanks_counts_witness :
  count_blanks ab_grid = Ok (blank_cells ab_grid) ∧ blank_cells ab_grid ≤ 2 * 2.
Proof.
  apply count_blanks_counts. split; [reflexivity|by repeat constructor].
Defined.

(** X2: a fresh grid is square, every cell of it is blank, and
    [count_blanks] counts [size * size] blanks on it. *)
Theorem init_grid_blank (n : nat) :
  square n (init_grid n)
  ∧ (∀ r c, (0 ≤ r < Z.of_nat n)%Z → (0 ≤ c < Z.of_nat n)%Z →
       grid_get (init_grid n) r c = Ok blank)
  ∧ count_blanks (init_grid n) = Ok (n * n).
Proof.
  split_and!.
  - apply init_grid_square.
  - intros r c Hr Hc. apply grid_get_Ok. split_and!; [lia..|].
    unfold cell, init_grid. rewrite lookup_replicate_2 by lia. simpl.
    apply lookup_replicate_2. lia.
  - unfold count_blanks.
    rewrite (proj1 (init_grid_square n)),
      (count_rows n (init_grid n) n (init_grid_square n)) by done.
    rewrite <- (proj1 (init_grid_square n)) at 1. rewrite firstn_all.
    f_equal. unfold blank_cells, init_grid.
    assert (∀ k, concat (replicate k (replicate n blank))
                 = replicate (k * n) blank) as ->.
    { induction k as [|k IH]; simpl; [done|].
      by rewrite IH, replicate_add. }
    generalize (n * n). intros m.
    induction m as [|m IH]; [done|].
    cbn [replicate]. rewrite filter_cons, decide_True by done.
    cbn [length]. by rewrite IH.
Qed.

(** ** place_word and the validator *)

(** X3: when the span of the word lies inside a square grid, [place_word]
    returns a grid of the same size on which the word reads back from the
    recorded start, leaves every cell off the span as it was, and records
    the entry under [wordnum]. *)
Theorem place_word_effect (n : nat) (g : grid) (w : word)
    (letter_idx row col : Z) (d : direction) (pl : gmap nat placement)
    (k : nat) :
  square n g →
  (∀ i, i < length w →
     let rc := span_cell d (span_start d row col letter_idx).1
                           (span_start d row col letter_idx).2 i in
     (0 ≤ rc.1 < Z.of_nat n)%Z ∧ (0 ≤ rc.2 < Z.of_nat n)%Z) →
  let start := span_start d row col letter_idx in
  ∃ g',
    place_word g w letter_idx row col d pl k
      = Ok (g', <[k := (w, start, d)]> pl)
    ∧ square n g'
    ∧ read_cells g' d start (length w) = Ok w
    ∧ (∀ r' c', (∀ i, i < length w → (r', c') ≠ span_cell d start.1 start.2 i) →
         grid_get g' r' c' = grid_get g r' c').
Proof.
  intros Hsq Hin start.
  destruct (place_word_is_Ok n g w letter_idx row col d pl k Hsq Hin)
    as [[g' pl'] Hp].
  destruct (place_word_spec _ _ _ _ _ _ _ _ _ _ Hp) as (-> & Hr & Hun & Hsq').
  exists g'. split_and!; [done|by apply Hsq'|by apply reads_read_cells|done].
Qed.

Lemma place_word_effect_witness :
  ∃ g',
    place_word ab_grid (str "bc") 0 0 1 Vert ab_placements 2
      = Ok (g', <[2 := (str "bc", span_start Vert 0 1 0, Vert)]> ab_placements)
    ∧ square 2 g'
    ∧ read_cells g' Vert (span_start Vert 0 1 0) (length (str "bc"))
      = Ok (str "bc")
    ∧ (∀ r' c',
         (∀ i, i < length (str "bc") →
               (r', c') ≠ span_cell Vert (span_start Vert 0 1 0).1
                                         (span_start Vert 0 1 0).2 i) →
         grid_get g' r' c' = grid_get ab_grid r' c').
Proof.
  apply (place_word_effect 2 ab_grid (str "bc") 0 0 1 Vert ab_placements 2).
  - split; [reflexivity|by repeat constructor].
  - intros i Hi. simpl in *. lia.
Defined.

(** X4: a placement the validator accepts can be applied: [place_word]
    succeeds on it, keeps the size of the grid, changes no letter that was
    on the grid, and the word reads back from the recorded start. *)
Theorem valid_placement_applies (n : nat) (g : grid) (w : word)
    (letter_idx row col : Z) (d : direction) (wl : list word) (s : Z)
    (pl : gmap nat placement) (k : nat) :
  square n g →
  is_valid_placement g w letter_idx row col d wl = Ok (Some s) →
  let start := span_start d row col letter_idx in
  ∃ g',
    place_word g w letter_idx row col d pl k
      = Ok (g', <[k := (w, start, d)]> pl)
    ∧ square n g'
    ∧ read_cells g' d start (length w) = Ok w
    ∧ (∀ r c x, grid_get g r c = Ok x → x ≠ blank → grid_get g' r c = Ok x).
Proof.
  intros Hsq Hv start. apply is_valid_placement_fits in Hv.
  destruct (place_word_is_Ok n g w letter_idx row col d pl k Hsq)
    as [[g' pl'] Hp].
  { intros i Hi. by eapply fits_in_range. }
  pose proof (place_word_keeps _ _ _ _ _ _ _ _ _ _ Hv Hp) as Hkeep.
  destruct (place_word_spec _ _ _ _ _ _ _ _ _ _ Hp) as (-> & Hr & _ & Hsq').
  exists g'. split_and!; [done|by apply Hsq'|by apply reads_read_cells|done].
Qed.

Lemma valid_placement_applies_witness :
  ∃ g',
    place_word ab_grid (str "bc") 0 0 1 Vert ab_placements 2
      = Ok (g', <[2 := (str "bc", span_start Vert 0 1 0, Vert)]> ab_placements)
    ∧ square 2 g'
    ∧ read_cells g' Vert (span_start Vert 0 1 0) (length (str "bc"))
      = Ok (str "bc")
    ∧ (∀ r c x, grid_get ab_grid r c = Ok x → x ≠ blank →
                grid_get g' r c = Ok x).
Proof.
  apply (valid_placement_applies 2 ab_grid (str "bc") 0 0 1 Vert
           [str "ab"; str "bc"] 1 ab_placements 2).
  - split; [reflexivity|by repeat constructor].
  - vm_compute. reflexivity.
Defined.

Lemma border_occupied_false (n : nat) (g : grid) (guard : bool) (r c : Z) :
  square n g →
  (guard = false → ¬ ((0 ≤ r < Z.of_nat n)%Z ∧ (0 ≤ c < Z.of_nat n)%Z)) →
  border_occupied g guard r c = Ok false →
  ∀ x, grid_get g r c = Ok x → x = blank.
Proof.
  intros Hsq Hguard Hb x Hx. unfold border_occupied in Hb.
  destruct guard.
  - rewrite Hx in Hb. cbn [mbind result_bind] in Hb.
    injection Hb as Hb. apply bool_decide_eq_false in Hb.
    by apply dec_stable in Hb.
  - destruct Hguard; [done|]. by eapply grid_get_lt.
Qed.

(** X5: what an accepted placement guarantees on a square grid: the span
    lies inside the grid, every cell under the word is blank or holds the
    word's letter, the cell just before the span and the cell just after
    it, along the word, are blank when they are on the grid, and the
    overlap count is not negative. *)
Theorem is_valid_placement_sound (n : nat) (g : grid) (w : word)
    (letter_idx row col : Z) (d : direction) (wl : list word) (s : Z) :
  square n g → (0 ≤ row < Z.of_nat n)%Z → (0 ≤ col < Z.of_nat n)%Z →
  is_valid_placement g w letter_idx row col d wl = Ok (Some s) →
  let start := span_start d row col letter_idx in
  let len := Z.of_nat (length w) in
  (0 ≤ s)%Z
  ∧ fits g w d start
  ∧ match d with
    | Horiz =>
        (0 ≤ start.2)%Z ∧ (start.2 + len ≤ Z.of_nat n)%Z
        ∧ (∀ x, grid_get g row (start.2 - 1) = Ok x → x = blank)
        ∧ (∀ x, grid_get g row (start.2 + len) = Ok x → x = blank)
    | Vert =>
        (0 ≤ start.1)%Z ∧ (start.1 + len ≤ Z.of_nat n)%Z
        ∧ (∀ x, grid_get g (start.1 - 1) col = Ok x → x = blank)
        ∧ (∀ x, grid_get g (start.1 + len) col = Ok x → x = blank)
    end.
Proof.
  intros Hsq Hr Hc Hv start len.
  split; [by eapply is_valid_placement_nonneg|].
  split; [by eapply is_valid_placement_fits|].
  unfold is_valid_placement in Hv. rewrite (proj1 Hsq) in Hv.
  destruct d; (case_bool_decide as Hb; [done|]);
    apply bind_Ok in Hv as ([] & Hb1 & Hv); try done;
    apply bind_Ok in Hv as ([] & Hb2 & Hv); try done;
    simpl; (split_and!; [lia|lia|..]).
  - refine (border_occupied_false n g _ _ _ Hsq _ Hb1).
    intros ?%bool_decide_eq_false. lia.
  - refine (border_occupied_false n g _ _ _ Hsq _ Hb2).
    intros ?%bool_decide_eq_false. lia.
  - refine (border_occupied_false n g _ _ _ Hsq _ Hb1).
    intros ?%bool_decide_eq_false. lia.
  - refine (border_occupied_false n g _ _ _ Hsq _ Hb2).
    intros ?%bool_decide_eq_false. lia.
Qed.

Lemma is_valid_placement_sound_witness :
  (0 ≤ 1)%Z
  ∧ fits ab_grid (str "bc") Vert (span_start Vert 0 1 0)
  ∧ (0 ≤ (span_start Vert 0 1 0).1)%Z
  ∧ ((span_start Vert 0 1 0).1 + Z.of_nat (length (str "bc")) ≤ Z.of_nat 2)%Z
  ∧ (∀ x, grid_get ab_grid ((span_start Vert 0 1 0).1 - 1) 1 = Ok x → x = blank)
  ∧ (∀ x, grid_get ab_grid
            ((span_start Vert 0 1 0).1 + Z.of_nat (length (str "bc"))) 1 = Ok x
          → x = blank).
Proof.
  apply (is_valid_placement_sound 2 ab_grid (str "bc") 0 0 1 Vert
           [str "ab"; str "bc"] 1).
  - split; [reflexivity|by repeat constructor].
  - lia.
  - lia.
  - vm_compute. reflexivity.
Defined.

(** X6: on a square grid, for an anchor cell of the grid and a non-empty
    word list, [is_valid_placement] raises no exception, whatever the word
    and the letter index (negative or past the end of the word included). *)
Theorem is_valid_placement_total (n : nat) (g : grid) (w : word)
    (letter_idx row col : Z) (d : direction) (wl : list word) :
  square n g → wl ≠ [] →
  (0 ≤ row < Z.of_nat n)%Z → (0 ≤ col < Z.of_nat n)%Z →
  ∃ r, is_valid_placement g w letter_idx row col d wl = Ok r.
Proof. intros Hsq Hwl Hr Hc. by apply (is_valid_placement_is_Ok n). Qed.

Lemma is_valid_placement_total_witness :
  ∃ r, is_valid_placement ab_grid (str "bc") (-7) 0 1 Horiz [str "ab"] = Ok r.
Proof.
  apply (is_valid_placement_total 2).
  - split; [reflexivity|by repeat constructor].
  - discriminate.
  - lia.
  - lia.
Defined.

(** ** is_adjacent_word *)

Lemma look_up_reads (g : grid) (row col : Z) (m a : nat) (w w' : word) :
  look_up g row col (seq a m) w = Ok w' →
  length w = a → 1 ≤ a →
  (∀ i wi, w !! i = Some wi →
     grid_get g (row - Z.of_nat (a - 1) + Z.of_nat i) col = Ok wi) →
  ∃ k, length w' = Datatypes.S k
       ∧ ∀ i wi, w' !! i = Some wi →
           grid_get g (row - Z.of_nat k + Z.of_nat i) col = Ok wi.
Proof.
  revert a w. induction m as [|m IH]; intros a w Hrun Hlen Ha Hreads.
  - injection Hrun as <-. exists (a - 1). split; [lia|done].
  - simpl in Hrun. case_bool_decide.
    2:{ injection Hrun as <-. exists (a - 1). split; [lia|].
        intros i wi Hi. rewrite <- (Hreads i wi Hi). f_equal; lia. }
    apply bind_Ok in Hrun as (c & Hget & Hrun).
    case_bool_decide.
    { injection Hrun as <-. exists (a - 1). split; [lia|].
      intros i wi Hi. rewrite <- (Hreads i wi Hi). f_equal; lia. }
    apply IH in Hrun; [done|simpl; lia|lia|].
    intros [|i] wi Hi; simpl in Hi.
    + injection Hi as <-. rewrite <- Hget. f_equal. lia.
    + rewrite <- (Hreads i wi Hi). f_equal. lia.
Qed.

Lemma look_left_reads (g : grid) (row col : Z) (m a : nat) (w w' : word) :
  look_left g row col (seq a m) w = Ok w' →
  length w = a → 1 ≤ a →
  (∀ i wi, w !! i = Some wi →
     grid_get g row (col - Z.of_nat (a - 1) + Z.of_nat i) = Ok wi) →
  ∃ k, length w' = Datatypes.S k
       ∧ ∀ i wi, w' !! i = Some wi →
           grid_get g row (col - Z.of_nat k + Z.of_nat i) = Ok wi.
Proof.
  revert a w. induction m as [|m IH]; intros a w Hrun Hlen Ha Hreads.
  - injection Hrun as <-. exists (a - 1). split; [lia|done].
  - simpl in Hrun. case_bool_decide.
    2:{ injection Hrun as <-. exists (a - 1). split; [lia|].
        intros i wi Hi. rewrite <- (Hreads i wi Hi). f_equal; lia. }
    apply bind_Ok in Hrun as (c & Hget & Hrun).
    case_bool_decide.
    { injection Hrun as <-. exists (a - 1). split; [lia|].
      intros i wi Hi. rewrite <- (Hreads i wi Hi). f_equal; lia. }
    apply IH in Hrun; [done|simpl; lia|lia|].
    intros [|i] wi Hi; simpl in Hi.
    + injection Hi as <-. rewrite <- Hget. f_equal. lia.
    + rewrite <- (Hreads i wi Hi). f_equal. lia.
Qed.

Lemma look_down_reads (g : grid) (row col : Z) (m a k : nat) (w w' : word) :
  look_down g row col (seq a m) w = Ok w' →
  length w = k + a →
  (∀ i wi, w !! i = Some wi →
     grid_get g (row - Z.of_nat k + Z.of_nat i) col = Ok wi) →
  length w ≤ length w'
  ∧ ∀ i wi, w' !! i = Some wi →
      grid_get g (row - Z.of_nat k + Z.of_nat i) col = Ok wi.
Proof.
  revert a w. induction m as [|m IH]; intros a w Hrun Hlen Hreads.
  - injection Hrun as <-. done.
  - simpl in Hrun. case_bool_decide; [|by injection Hrun as <-].
    apply bind_Ok in Hrun as (c & Hget & Hrun).
    destruct (bool_decide (c = blank) || _); [by injection Hrun as <-|].
    apply IH in Hrun.
    + destruct Hrun as [Hle Hr']. split; [|done].
      rewrite length_app in Hle. simpl in Hle. lia.
    + rewrite length_app. simpl. lia.
    + intros i wi [Hi|[Hi Hlast]]%lookup_app_Some; [by apply Hreads|].
      apply list_lookup_singleton_Some in Hlast as [Hd <-].
      rewrite <- Hget. f_equal. lia.
Qed.

Lemma look_right_reads (g : grid) (row col : Z) (m a k : nat) (w w' : word) :
  look_right g row col (seq a m) w = Ok w' →
  length w = k + a →
  (∀ i wi, w !! i = Some wi →
     grid_get g row (col - Z.of_nat k + Z.of_nat i) = Ok wi) →
  length w ≤ length w'
  ∧ ∀ i wi, w' !! i = Some wi →
      grid_get g row (col - Z.of_nat k + Z.of_nat i) = Ok wi.
Proof.
  revert a w. induction m as [|m IH]; intros a w Hrun Hlen Hreads.
  - injection Hrun as <-. done.
  - simpl in Hrun. case_bool_decide; [|by injection Hrun as <-].
    apply bind_Ok in Hrun as (c & Hget & Hrun).
    destruct (bool_decide (c = blank) || _); [by injection Hrun as <-|].
    apply IH in Hrun.
    + destruct Hrun as [Hle Hr']. split; [|done].
      rewrite length_app in Hle. simpl in Hle. lia.
    + rewrite length_app. simpl. lia.
    + intros i wi [Hi|[Hi Hlast]]%lookup_app_Some; [by apply Hreads|].
      apply list_lookup_singleton_Some in Hlast as [Hd <-].
      rewrite <- Hget. f_equal. lia.
Qed.

(** X7: when [is_adjacent_word] answers [True] for a cell, a word of the
    list lies on the grid through that cell in the given direction: it can
    be read off the grid from a start at most [len(word) - 1] cells before
    the cell. *)
Theorem is_adjacent_word_sound (g : grid) (row col : Z) (d : direction)
    (wl : list word) :
  is_adjacent_word g row col d wl = Ok true →
  ∃ w (k : nat),
    w ∈ wl ∧ k < length w
    ∧ reads g w d (span_start d row col (Z.of_nat k)).
Proof.
  unfold is_adjacent_word. intros Ha.
  apply bind_Ok in Ha as (longest & _ & Ha).
  destruct d.
  - apply bind_Ok in Ha as (c & Hc & Ha).
    apply bind_Ok in Ha as (w1 & Hw1 & Ha).
    apply bind_Ok in Ha as (w2 & Hw2 & Ha).
    injection Ha as Hin%bool_decide_eq_true.
    apply look_left_reads in Hw1 as (k & Hk & Hreads1); [|done|lia|].
    2:{ intros [|i] wi Hi; [|done]. injection Hi as <-.
        rewrite <- Hc. f_equal. lia. }
    apply (look_right_reads _ _ _ _ _ k) in Hw2 as [Hlen Hreads2];
      [|lia|done].
    exists w2, k. split_and!; [done|lia|]. intros i wi Hi. simpl.
    by apply Hreads2.
  - apply bind_Ok in Ha as (c & Hc & Ha).
    apply bind_Ok in Ha as (w1 & Hw1 & Ha).
    apply bind_Ok in Ha as (w2 & Hw2 & Ha).
    injection Ha as Hin%bool_decide_eq_true.
    apply look_up_reads in Hw1 as (k & Hk & Hreads1); [|done|lia|].
    2:{ intros [|i] wi Hi; [|done]. injection Hi as <-.
        rewrite <- Hc. f_equal. lia. }
    apply (look_down_reads _ _ _ _ _ k) in Hw2 as [Hlen Hreads2];
      [|lia|done].
    exists w2, k. split_and!; [done|lia|]. intros i wi Hi. simpl.
    by apply Hreads2.
Qed.

Lemma is_adjacent_word_sound_witness :
  ∃ w (k : nat),
    w ∈ [str "ab"] ∧ k < length w
    ∧ reads ab_grid w Horiz (span_start Horiz 0 1 (Z.of_nat k)).
Proof.
  apply is_adjacent_word_sound. vm_compute. reflexivity.
Defined.

(** ** find_best_placement and the builder *)

Lemma init_grid_get (n : nat) (r c : Z) (x : ascii) :
  grid_get (init_grid n) r c = Ok x → x = blank.
Proof.
  intros (_ & _ & Hcell)%grid_get_Ok. unfold cell, init_grid in Hcell.
  destruct (replicate n (replicate n blank) !! Z.to_nat r) as [row|] eqn:Hrow;
    [|done].
  apply lookup_replicate in Hrow as [-> _]. simpl in Hcell.
  by apply lookup_replicate in Hcell as [-> _].
Qed.

(** X8: a word none of whose letters is on the grid gets no position: the
    search returns the all-[False] tuple (and raises nothing). *)
Theorem find_best_placement_no_letter (n : nat) (g : grid) (w : word)
    (wl : list word) :
  square n g → wl ≠ [] →
  (∀ letter r c, letter ∈ w → grid_get g r c ≠ Ok letter) →
  find_best_placement w g wl = Ok None.
Proof.
  intros Hsq Hwl Hno.
  destruct (find_best_placement_is_Ok g w wl n Hsq Hwl) as [p Hp].
  destruct p as [[[[row col] li] d]|]; [|done].
  apply find_best_placement_Some in Hp as (i & letter & s & _ & Hi & Hget & _).
  destruct (Hno letter row col); [|done]. by eapply list_elem_of_lookup_2.
Qed.

Lemma find_best_placement_no_letter_witness :
  find_best_placement (str "ab") (init_grid 2) [str "ab"] = Ok None.
Proof.
  apply (find_best_placement_no_letter 2).
  - apply init_grid_square.
  - discriminate.
  - intros letter r c Hin Hget. apply init_grid_get in Hget. subst letter.
    by repeat (apply elem_of_cons in Hin as [?|Hin]; [done|]);
      apply elem_of_nil in Hin.
Defined.

Lemma build_prefix_S (k : nat) (g : grid) (wl : list word)
    (draw : direction * nat) :
  build_prefix (S k) g wl draw
  = build_prefix k g wl draw ≫= build_body wl (drop 1 wl) k.
Proof.
  unfold build_prefix. destruct (py_get wl 0) as [first|]; [|done].
  cbn [mbind result_bind].
  destruct (place_first g first ∅ draw) as [st|]; [|done].
  cbn [mbind result_bind]. apply for_each_seq_S.
Qed.

(** A round of the loop touches no slot but its own. *)
Lemma build_body_slot (wl words : list word) (i : nat)
    (st st' : grid * gmap nat placement) (k : nat) :
  build_body wl words i st = Ok st' → k ≠ i + 2 → st'.2 !! k = st.2 !! k.
Proof.
  unfold build_body. intros Hb Hk.
  apply bind_Ok in Hb as (w & _ & Hb). apply bind_Ok in Hb as (p & _ & Hb).
  destruct p as [[[[row col] li] d]|]; [|by injection Hb as <-].
  destruct st' as [g' pl'].
  destruct (place_word_spec _ _ _ _ _ _ _ _ _ _ Hb) as (-> & _).
  simpl. by rewrite lookup_insert_ne.
Qed.

Lemma build_prefix_first (k : nat) (g : grid) (wl : list word)
    (draw : direction * nat) (st : grid * gmap nat placement) :
  build_prefix k g wl draw = Ok st →
  ∃ first pos d, wl !! 0 = Some first ∧ st.2 !! 1 = Some (first, pos, d).
Proof.
  revert st. induction k as [|k IH]; intros st Hb.
  - unfold build_prefix in Hb.
    apply bind_Ok in Hb as (first & Hfirst%py_get_Ok & Hb).
    apply bind_Ok in Hb as (st0 & Hst0 & [= <-]).
    apply place_first_start in Hst0 as (r & c & d & -> & _).
    exists first, (r, c), d. split; [done|]. apply lookup_singleton_eq.
  - rewrite build_prefix_S in Hb. apply bind_Ok in Hb as (st0 & Hst0 & Hb).
    destruct (IH _ Hst0) as (first & pos & d & Hfirst & Hslot).
    exists first, pos, d. split; [done|].
    rewrite (build_body_slot _ _ _ _ _ 1 Hb); [done|lia].
Qed.

(** Slots are numbered from 1 to the number of words. *)
Lemma slots_size (n : nat) (pl : gmap nat placement) :
  (∀ k, is_Some (pl !! k) → 1 ≤ k ≤ n) →
  size pl ≤ n
  ∧ (size pl = n → ∀ k, 1 ≤ k ≤ n → is_Some (pl !! k)).
Proof.
  intros Hkeys.
  assert (dom pl ⊆ (set_seq 1 n : gset nat)) as Hsub.
  { intros k Hk%elem_of_dom. apply elem_of_set_seq.
    destruct (Hkeys k Hk). lia. }
  split.
  - rewrite <- size_dom. etrans; [by apply subseteq_size|].
    by rewrite size_set_seq.
  - intros Hsize k Hk. apply elem_of_dom.
    rewrite (set_subseteq_size_eq _ _ Hsub).
    + apply elem_of_set_seq. lia.
    + by rewrite size_set_seq, size_dom, Hsize.
Qed.

(** X9: on a square grid at least as wide as the first word, the builder
    raises nothing; it keeps the size of the grid, slot 1 holds the first
    word of the list, every slot [k] is between 1 and the number of words
    and holds the [k]-th word, so the map never has more entries than there
    are words. *)
Theorem build_crossword_shape (n : nat) (g : grid) (wl : list word)
    (draw : direction * nat) :
  square n g → 0 < n → wl ≠ [] →
  (∀ first, wl !! 0 = Some first → length first ≤ n) →
  ∃ g' pl,
    build_crossword g wl draw = Ok (g', pl)
    ∧ square n g'
    ∧ (∃ first pos d, wl !! 0 = Some first ∧ pl !! 1 = Some (first, pos, d))
    ∧ (∀ k w pos d, pl !! k = Some (w, pos, d) →
         1 ≤ k ≤ length wl ∧ wl !! (k - 1) = Some w)
    ∧ 1 ≤ size pl ≤ length wl.
Proof.
  intros Hsq Hn Hwl Hfirst. unfold build_crossword.
  destruct (build_prefix_is_Ok n wl Hwl (length (drop 1 wl)) g draw)
    as ([g' pl] & Hb & [Hsq' Hkeys]); [done..|].
  exists g', pl. simpl in *.
  pose proof (build_prefix_first _ _ _ _ _ Hb) as Hslot1.
  assert (∀ k w pos d, pl !! k = Some (w, pos, d) →
            1 ≤ k ≤ length wl ∧ wl !! (k - 1) = Some w) as Hkeys'.
  { intros k w pos d Hk. destruct (Hkeys _ _ _ _ Hk) as [H1 Hw].
    split; [|done]. apply lookup_lt_Some in Hw. lia. }
  split_and!; [done..| |].
  - destruct Hslot1 as (first & pos & d & _ & Hs).
    destruct (decide (size pl = 0)) as [Hz|]; [|lia].
    apply map_size_empty_iff in Hz. by rewrite Hz in Hs.
  - apply slots_size. intros k [[[w pos] d] Hk]. by eapply Hkeys'.
Qed.

Lemma build_crossword_shape_witness :
  ∃ g' pl,
    build_crossword (init_grid 2) [str "ab"; str "bc"] (Horiz, 0) = Ok (g', pl)
    ∧ square 2 g'
    ∧ (∃ first pos d, [str "ab"; str "bc"] !! 0 = Some first
                      ∧ pl !! 1 = Some (first, pos, d))
    ∧ (∀ k w pos d, pl !! k = Some (w, pos, d) →
         1 ≤ k ≤ length [str "ab"; str "bc"]
         ∧ [str "ab"; str "bc"] !! (k - 1) = Some w)
    ∧ 1 ≤ size pl ≤ length [str "ab"; str "bc"].
Proof.
  apply build_crossword_shape.
  - apply init_grid_square.
  - lia.
  - discriminate.
  - intros first [= <-]. simpl. lia.
Defined.

(** ** The order of the words *)

Lemma insert_by_len_sorted (w : word) (l : list word) :
  StronglySorted (λ a b : word, length b ≤ length a) l →
  StronglySorted (λ a b : word, length b ≤ length a) (insert_by_len w l).
Proof.
  induction l as [|y l IH]; intros Hs; simpl.
  - by repeat constructor.
  - apply StronglySorted_inv in Hs as [Hl Hy].
    destruct (length y <=? length w) eqn:Hle.
    + apply Nat.leb_le in Hle. constructor; [by constructor|].
      constructor; [done|]. eapply Forall_impl; [done|]. simpl. lia.
    + apply Nat.leb_gt in Hle. constructor; [by apply IH|].
      rewrite insert_by_len_perm. constructor; [lia|done].
Qed.

Lemma insert_by_len_filter (len : nat) (w : word) (l : list word) :
  filter (λ x : word, length x = len) (insert_by_len w l)
  = filter (λ x : word, length x = len) (w :: l).
Proof.
  induction l as [|y l IH]; simpl; [done|].
  destruct (length y <=? length w) eqn:Hle; [done|].
  apply Nat.leb_gt in Hle.
  rewrite (filter_cons _ y (insert_by_len w l)), IH, !filter_cons.
  repeat case_decide; try done; lia.
Qed.

(** X10: the order in which [generate] takes the words: a rearrangement of
    the input, longest first, in which words of equal length keep the
    order they have in the input. *)
Theorem sorted_by_len_stable (wl : list word) :
  sorted_by_len wl ≡ₚ wl
  ∧ StronglySorted (λ a b : word, length b ≤ length a) (sorted_by_len wl)
  ∧ ∀ len, filter (λ x : word, length x = len) (sorted_by_len wl)
           = filter (λ x : word, length x = len) wl.
Proof.
  split_and!.
  - apply sorted_by_len_perm.
  - induction wl as [|w wl IH]; simpl; [constructor|].
    by apply insert_by_len_sorted.
  - intros len. induction wl as [|w wl IH]; simpl; [done|].
    rewrite insert_by_len_filter, !filter_cons, IH. done.
Qed.

Lemma sorted_by_len_head (wl : list word) (first : word) :
  sorted_by_len wl !! 0 = Some first →
  first ∈ wl ∧ ∀ w, w ∈ wl → length w ≤ length first.
Proof.
  intros Hfirst. split.
  - apply sorted_by_len_elem_of. by eapply list_elem_of_lookup_2.
  - intros w Hw%sorted_by_len_elem_of.
    assert (StronglySorted (λ a b : word, length b ≤ length a)
              (sorted_by_len wl)) as Hs.
    { clear. induction wl as [|w wl IH]; simpl; [constructor|].
      by apply insert_by_len_sorted. }
    destruct (sorted_by_len wl) as [|f rest]; [done|]. injection Hfirst as ->.
    apply StronglySorted_inv in Hs as [_ Hall].
    apply elem_of_cons in Hw as [->|Hw]; [done|].
    rewrite Forall_forall in Hall. by apply Hall.
Qed.

(** X11: the first attempt runs on a grid as wide as the longest word. *)
Theorem initial_size_longest (wl : list word) (rnd : nat → direction * nat)
    (n : nat) :
  size_at 0 wl rnd = Ok n →
  (∀ w, w ∈ wl → length w ≤ n) ∧ ∃ w, w ∈ wl ∧ length w = n.
Proof.
  unfold size_at, state_at. intros Hs.
  apply bind_Ok in Hs as (st & Hst & [= <-]).
  apply bind_Ok in Hst as (first & Hfirst%py_get_Ok & [= <-]). simpl.
  apply sorted_by_len_head in Hfirst as [Hin Hmax]. split; [done|].
  by exists first.
Qed.

Lemma initial_size_longest_witness :
  (∀ w, w ∈ c1_words → length w ≤ 4) ∧ ∃ w, w ∈ c1_words ∧ length w = 4.
Proof.
  apply (initial_size_longest c1_words rnd_first_row). reflexivity.
Defined.

(** ** The attempts of generate *)

Lemma state_at_first (wl : list word) (rnd : nat → direction * nat)
    (first : word) (i : nat) :
  sorted_by_len wl !! 0 = Some first → 0 < length first →
  ∃ st, state_at i wl rnd = Ok st
        ∧ length first ≤ grid_size st
        ∧ 5 * (grid_size st - length first) ≤ i + 4.
Proof.
  intros Hfirst Hpos. induction i as [|i (st & Hst & Hge & Hle)].
  - exists (Driver (length first) ∅). unfold state_at.
    rewrite (proj2 (py_get_Ok _ _ _) Hfirst). simpl.
    split_and!; [done|lia|lia].
  - rewrite state_at_S, Hst. cbn [mbind result_bind].
    destruct (attempt_is_Ok wl rnd i st first) as [st' Hst']; [done|lia|].
    exists st'. split; [done|].
    pose proof (attempt_size _ _ _ _ _ Hst') as Hmono.
    apply attempt_spec in Hst' as (g & pl & _ & Hcase).
    split; [lia|].
    case_bool_decide.
    + destruct Hcase as (b & _ & ->). simpl. lia.
    + subst st'. case_bool_decide as Hmod; simpl; [|lia].
      pose proof (Nat.div_mod_eq i 5). lia.
Qed.

Lemma state_at_nonempty (wl : list word) (rnd : nat → direction * nat)
    (w : word) (i : nat) :
  w ∈ wl → w ≠ [] → ∃ st, state_at i wl rnd = Ok st.
Proof.
  intros Hin Hne.
  destruct (sorted_by_len wl !! 0) as [first|] eqn:Hfirst.
  2:{ apply lookup_ge_None in Hfirst. rewrite sorted_by_len_length in Hfirst.
      destruct wl; [by apply elem_of_nil in Hin|simpl in Hfirst; lia]. }
  assert (0 < length first) as Hpos.
  { apply sorted_by_len_head in Hfirst as [_ Hmax]. specialize (Hmax w Hin).
    destruct w; [done|simpl in Hmax; lia]. }
  destruct (state_at_first wl rnd first i Hfirst Hpos) as (st & Hst & _).
  by exists st.
Qed.

(** X12: with at least one non-empty word in the list, [generate] raises
    no exception, whatever the random draws. *)
Theorem generate_total (wl : list word) (rnd : nat → direction * nat)
    (w : word) :
  w ∈ wl → w ≠ [] → ∃ r, generate wl rnd = Ok r.
Proof.
  intros Hin Hne.
  destruct (state_at_nonempty wl rnd w max_iter Hin Hne) as [st Hst].
  unfold generate. rewrite Hst. cbn [mbind result_bind].
  destruct (min_key (candidate_grids st)) as [k|] eqn:Hmin; [|by eexists].
  apply min_key_Some in Hmin as [[c ->] _]. by eexists.
Qed.

Lemma generate_total_witness :
  ∃ r, generate [[]; str "ab"] rnd_first_row = Ok r.
Proof.
  apply (generate_total _ _ (str "ab")).
  - right. by left.
  - discriminate.
Defined.

(** X13: a non-empty list whose words are all empty makes [generate] raise
    [ValueError]: the grid has size 0 and [random.randint(0, -1)] has no
    value to draw. *)
Theorem generate_empty_words (wl : list word) (rnd : nat → direction * nat) :
  wl ≠ [] → (∀ w, w ∈ wl → w = []) → generate wl rnd = Err ValueError.
Proof.
  intros Hne Hall.
  destruct (sorted_by_len wl) as [|first rest] eqn:Hs;
    [by apply sorted_by_len_nonempty in Hne|].
  assert (first = []) as ->.
  { apply Hall, sorted_by_len_elem_of. rewrite Hs. by left. }
  assert (attempt ([] :: rest) rnd 0 (Driver 0 ∅) = Err ValueError) as Ha.
  { unfold attempt, build_crossword, build_prefix, place_first, randint0.
    simpl. by destruct (rnd 0).1. }
  unfold generate, state_at. rewrite Hs.
  change (py_get ([] :: rest) 0) with (Ok ([] : word)).
  change (seq 0 max_iter) with (0 :: seq 1 99).
  cbn [mbind result_bind for_each length]. by rewrite Ha.
Qed.

Lemma generate_empty_words_witness :
  generate [[]; []] rnd_first_row = Err ValueError.
Proof.
  apply generate_empty_words.
  - discriminate.
  - intros w Hw. by repeat (apply elem_of_cons in Hw as [?|Hw]; [done|]);
      apply elem_of_nil in Hw.
Defined.

Lemma state_at_mono (wl : list word) (rnd : nat → direction * nat)
    (i j : nat) (sti stj : driver) :
  i ≤ j → state_at i wl rnd = Ok sti → state_at j wl rnd = Ok stj →
  grid_size sti ≤ grid_size stj.
Proof.
  intros Hij Hi. revert stj. induction Hij as [|j Hij IH]; intros stj Hj.
  - rewrite Hi in Hj. by injection Hj as <-.
  - rewrite state_at_S in Hj. apply bind_Ok in Hj as (st & Hst & Ha).
    apply attempt_size in Ha. specialize (IH _ Hst). lia.
Qed.

Lemma state_at_bounds (wl : list word) (rnd : nat → direction * nat)
    (first : word) (i : nat) (st : driver) :
  sorted_by_len wl !! 0 = Some first → state_at i wl rnd = Ok st →
  length first ≤ grid_size st ∧ 5 * (grid_size st - length first) ≤ i + 4.
Proof.
  intros Hfirst. revert st. induction i as [|i IH]; intros st Hst.
  - unfold state_at in Hst. rewrite (proj2 (py_get_Ok _ _ _) Hfirst) in Hst.
    injection Hst as <-. simpl. lia.
  - rewrite state_at_S in Hst. apply bind_Ok in Hst as (st0 & Hst0 & Ha).
    destruct (IH _ Hst0) as [Hge Hle].
    pose proof (attempt_size _ _ _ _ _ Ha) as Hmono.
    apply attempt_spec in Ha as (g & pl & _ & Hcase).
    split; [lia|]. case_bool_decide.
    + destruct Hcase as (b & _ & ->). simpl. lia.
    + subst st. case_bool_decide as Hmod; simpl; [|lia].
      pose proof (Nat.div_mod_eq i 5). lia.
Qed.

(** X14: over the attempts of one call the grid size never decreases, it
    starts at the length [L] of the longest word and after [j] attempts it
    has grown by at most one per five attempts (rounded up), so it never
    exceeds [L + 20]. *)
Theorem grid_size_bounds (wl : list word) (rnd : nat → direction * nat)
    (i j L a b : nat) :
  size_at 0 wl rnd = Ok L → size_at i wl rnd = Ok a → size_at j wl rnd = Ok b →
  i ≤ j →
  L ≤ a ∧ a ≤ b ∧ 5 * (b - L) ≤ j + 4.
Proof.
  unfold size_at. intros H0 Hi Hj Hij.
  apply bind_Ok in H0 as (st0 & Hst0 & [= <-]).
  apply bind_Ok in Hi as (sti & Hsti & [= <-]).
  apply bind_Ok in Hj as (stj & Hstj & [= <-]).
  pose proof Hst0 as Hfirst. unfold state_at in Hfirst.
  apply bind_Ok in Hfirst as (first & Hfirst%py_get_Ok & [= Hst]).
  subst st0. simpl.
  destruct (state_at_bounds wl rnd first i sti Hfirst Hsti) as [Hge _].
  destruct (state_at_bounds wl rnd first j stj Hfirst Hstj) as [_ Hle].
  pose proof (state_at_mono wl rnd i j sti stj Hij Hsti Hstj) as Hmono.
  simpl in *. lia.
Qed.

Lemma grid_size_bounds_witness :
  4 ≤ 4 ∧ 4 ≤ 4 ∧ 5 * (4 - 4) ≤ 100 + 4.
Proof.
  apply (grid_size_bounds c1_words rnd_first_row 3 100 4 4 4).
  - vm_compute. reflexivity.
  - vm_compute. reflexivity.
  - vm_compute. reflexivity.
  - lia.
Defined.

Lemma built_at_inv (wl : list word) (rnd : nat → direction * nat) (j : nat)
    (g : grid) (pl : gmap nat placement) (b : bool) :
  built_at j wl rnd = Ok ((g, pl), b) →
  ∃ stj, state_at j wl rnd = Ok stj
         ∧ build_crossword (init_grid (grid_size stj)) (sorted_by_len wl)
             (rnd j) = Ok (g, pl)
         ∧ b = bool_decide (size pl = length (sorted_by_len wl)).
Proof.
  unfold built_at. intros Hb.
  apply bind_Ok in Hb as (stj & Hstj & Hb).
  apply bind_Ok in Hb as ([g0 pl0] & Hbuild & [= -> -> <-]).
  by exists stj.
Qed.

(** X15: what [generate] returns was built, complete, by one of the 100
    attempts; it returns no grid exactly when no attempt was complete. *)
Theorem generate_complete_attempt (wl : list word)
    (rnd : nat → direction * nat) (r : option candidate) :
  generate wl rnd = Ok r →
  match r with
  | Some c => ∃ i, i < max_iter ∧ built_at i wl rnd = Ok (c, true)
  | None => ∀ i c, i < max_iter → built_at i wl rnd ≠ Ok (c, true)
  end.
Proof.
  unfold generate. intros Hgen.
  apply bind_Ok in Hgen as (st & Hst & Hgen).
  destruct (min_key (candidate_grids st)) as [k|] eqn:Hmin.
  - destruct (candidate_grids st !! k) as [[g pl]|] eqn:Hk; [|done].
    injection Hgen as <-.
    by destruct (state_at_candidate _ _ _ _ _ _ _ Hst Hk) as (_ & j & Hj & Hb);
      exists j.
  - injection Hgen as <-. apply min_key_None in Hmin.
    intros i [g pl] Hi Hbuilt.
    apply built_at_inv in Hbuilt as (sti & Hsti & Hbuild & Hcomplete).
    destruct (state_at_le wl rnd (S i) max_iter st) as [st' Hst']; [lia|done|].
    pose proof Hst' as Hstep. rewrite state_at_S, Hsti in Hstep.
    cbn [mbind result_bind] in Hstep.
    apply attempt_spec in Hstep as (g0 & pl0 & Hbuild' & Hcase).
    rewrite Hbuild in Hbuild'. injection Hbuild' as <- <-.
    rewrite <- Hcomplete in Hcase. destruct Hcase as (b & _ & ->).
    destruct (state_at_keys wl rnd (S i) max_iter _ st b ltac:(lia) Hst' Hst)
      as [c Hc].
    { simpl. rewrite lookup_insert_eq. by eexists. }
    by rewrite Hmin in Hc.
Qed.

Lemma generate_complete_attempt_witness :
  ∃ i, i < max_iter
       ∧ built_at i [str "ab"] rnd_first_row
         = Ok ((ab_grid, ab_placements), true).
Proof.
  apply (generate_complete_attempt [str "ab"] rnd_first_row
           (Some (ab_grid, ab_placements))).
  vm_compute. reflexivity.
Defined.

(** X16: the grid [generate] returns is square, at least as wide as the
    longest word and at most 20 cells wider; every slot from 1 to the
    number of words is in the placement map with the word of that rank, and
    every input word is recorded in some slot. *)
Theorem generate_result_shape (wl : list word) (rnd : nat → direction * nat)
    (g : grid) (pl : gmap nat placement) :
  generate wl rnd = Ok (Some (g, pl)) →
  ∃ n first,
    sorted_by_len wl !! 0 = Some first
    ∧ square n g ∧ length first ≤ n ≤ length first + 20
    ∧ (∀ k, 1 ≤ k ≤ length wl →
         ∃ w pos d, pl !! k = Some (w, pos, d)
                    ∧ sorted_by_len wl !! (k - 1) = Some w)
    ∧ (∀ w, w ∈ wl → ∃ k pos d, pl !! k = Some (w, pos, d)).
Proof.
  intros Hgen. pose proof Hgen as Hgen'. unfold generate in Hgen'.
  apply bind_Ok in Hgen' as (st & Hst & _).
  assert (∃ j, j < max_iter ∧ built_at j wl rnd = Ok ((g, pl), true))
    as (j & Hj & Hbuilt).
  { unfold generate in Hgen. rewrite Hst in Hgen.
    cbn [mbind result_bind] in Hgen.
    destruct (min_key (candidate_grids st)) as [k0|] eqn:Hmin; [|done].
    destruct (candidate_grids st !! k0) as [cand|] eqn:Hk0; [|done].
    injection Hgen as ->.
    by destruct (state_at_candidate _ _ _ _ _ _ _ Hst Hk0) as (_ & j & ? & ?);
      exists j. }
  apply built_at_inv in Hbuilt as (stj & Hstj & Hbuild & Hcomplete).
  symmetry in Hcomplete. apply bool_decide_eq_true in Hcomplete.
  pose proof Hstj as Hfirst. unfold state_at in Hfirst.
  apply bind_Ok in Hfirst as (first & Hfirst%py_get_Ok & _).
  destruct (state_at_bounds wl rnd first j stj Hfirst Hstj) as [Hge Hle].
  unfold build_crossword in Hbuild.
  apply (build_prefix_spec (grid_size stj)) in Hbuild
    as [[Hsq Hkeys] _]; [|apply init_grid_square].
  simpl in Hsq, Hkeys.
  assert (∀ k, 1 ≤ k ≤ length wl →
            ∃ w pos d, pl !! k = Some (w, pos, d)
                       ∧ sorted_by_len wl !! (k - 1) = Some w) as Hslots.
  { intros k Hk.
    destruct (slots_size (length (sorted_by_len wl)) pl) as [_ Hall].
    { intros k' [[[w pos] d] Hk']. destruct (Hkeys _ _ _ _ Hk') as [? Hw].
      apply lookup_lt_Some in Hw. lia. }
    destruct (Hall Hcomplete k) as [[[w pos] d] Hw];
      [by rewrite sorted_by_len_length|].
    exists w, pos, d. split; [done|]. by eapply Hkeys. }
  exists (grid_size stj), first.
  split_and!; [done|done|done|unfold max_iter in Hj; lia|done|].
  intros w Hw%sorted_by_len_elem_of.
  apply list_elem_of_lookup in Hw as [i Hi].
  destruct (Hslots (S i)) as (w' & pos & d & Hk & Hw').
  { apply lookup_lt_Some in Hi. rewrite sorted_by_len_length in Hi. lia. }
  simpl in Hw'. rewrite Nat.sub_0_r, Hi in Hw'. injection Hw' as <-.
  by exists (S i), pos, d.
Qed.

Lemma generate_result_shape_witness :
  ∃ n first,
    sorted_by_len c1_words !! 0 = Some first
    ∧ square n c1_grid ∧ length first ≤ n ≤ length first + 20
    ∧ (∀ k, 1 ≤ k ≤ length c1_words →
         ∃ w pos d, c1_placements !! k = Some (w, pos, d)
                    ∧ sorted_by_len c1_words !! (k - 1) = Some w)
    ∧ (∀ w, w ∈ c1_words → ∃ k pos d, c1_placements !! k = Some (w, pos, d)).
Proof.
  apply (generate_result_shape c1_words rnd_first_row).
  vm_compute. reflexivity.
Defined.

(** ** The letters on the grid *)

Lemma elem_of_concat {A : Type} (x : A) (ls : list (list A)) :
  x ∈ concat ls → ∃ l, l ∈ ls ∧ x ∈ l.
Proof.
  induction ls as [|l ls IH]; simpl; [by intros ?%elem_of_nil|].
  intros [Hx|Hx]%elem_of_app.
  - exists l. split; [by left|done].
  - destruct (IH Hx) as (l' & Hl' & Hx'). exists l'. split; [by right|done].
Qed.

Lemma letters_from_mono (ls ls' : list ascii) (g : grid) :
  ls ⊆ ls' → letters_from ls g → letters_from ls' g.
Proof. intros Hsub Hl r c x Hget Hx. by eapply Hsub, Hl. Qed.

Lemma place_word_letters (g g' : grid) (w : word) (letter_idx row col : Z)
    (d : direction) (pl pl' : gmap nat placement) (k : nat)
    (ls : list ascii) :
  place_word g w letter_idx row col d pl k = Ok (g', pl') →
  letters_from ls g → letters_from (ls ++ w) g'.
Proof.
  intros Hp Hl r c x Hget Hx.
  destruct (place_word_spec _ _ _ _ _ _ _ _ _ _ Hp) as (_ & Hreads & Hun & _).
  set (start := span_start d row col letter_idx) in *.
  apply elem_of_app.
  destruct (decide (Exists (λ i, (r, c) = span_cell d start.1 start.2 i)
                      (seq 0 (length w)))) as [Hex|Hnex].
  - right. apply Exists_exists in Hex as (i & Hi%elem_of_seq & Hrc).
    destruct (lookup_lt_is_Some_2 w i) as [wi Hwi]; [lia|].
    specialize (Hreads i wi Hwi). rewrite <- Hrc in Hreads. simpl in Hreads.
    rewrite Hget in Hreads. injection Hreads as ->.
    by eapply list_elem_of_lookup_2.
  - left. eapply Hl; [|done]. rewrite <- Hun; [done|].
    intros i Hi Hrc. apply Hnex.
    apply Exists_exists. exists i. split; [|done]. apply elem_of_seq. lia.
Qed.

Lemma build_prefix_letters (k : nat) (g : grid) (wl : list word)
    (draw : direction * nat) (st : grid * gmap nat placement) :
  letters_from [] g →
  build_prefix k g wl draw = Ok st →
  letters_from (earlier_letters wl (S k)) st.1.
Proof.
  intros Hg. revert st. induction k as [|k IH]; intros st Hb.
  - unfold build_prefix in Hb.
    apply bind_Ok in Hb as (first & Hfirst%py_get_Ok & Hb).
    apply bind_Ok in Hb as (st0 & Hst0 & [= <-]).
    unfold earlier_letters.
    destruct wl as [|w0 wl']; [done|]. injection Hfirst as ->.
    cbn [take concat]. rewrite app_nil_r.
    unfold place_first in Hst0. destruct st0 as [g' pl'].
    destruct draw.1; inv_bind Hst0;
      apply (place_word_letters _ _ _ _ _ _ _ _ _ _ [] Hst0 Hg).
  - rewrite build_prefix_S in Hb. apply bind_Ok in Hb as (st0 & Hst0 & Hb).
    specialize (IH _ Hst0). unfold build_body in Hb.
    apply bind_Ok in Hb as (w & Hw%py_get_Ok & Hb).
    apply bind_Ok in Hb as (p & _ & Hb).
    rewrite lookup_drop in Hw. change (1 + k) with (S k) in Hw.
    unfold earlier_letters in *.
    rewrite (take_S_r _ _ _ Hw), concat_app. simpl. rewrite app_nil_r.
    destruct p as [[[[row col] li] d]|].
    + destruct st as [g' pl']. by eapply place_word_letters.
    + injection Hb as <-. eapply letters_from_mono; [|done].
      intros x Hx. apply elem_of_app. by left.
Qed.

Lemma init_grid_letters (n : nat) : letters_from [] (init_grid n).
Proof. intros r c x Hget Hx. by apply init_grid_get in Hget. Qed.

(** X17: every cell of the grid [generate] returns is blank or holds a
    letter of one of the input words. *)
Theorem generate_letters (wl : list word) (rnd : nat → direction * nat)
    (g : grid) (pl : gmap nat placement) (r c : Z) (x : ascii) :
  generate wl rnd = Ok (Some (g, pl)) →
  grid_get g r c = Ok x → x ≠ blank →
  ∃ w, w ∈ wl ∧ x ∈ w.
Proof.
  intros Hgen Hget Hx. unfold generate in Hgen.
  apply bind_Ok in Hgen as (st & Hst & Hgen).
  destruct (min_key (candidate_grids st)) as [k0|] eqn:Hmin; [|done].
  destruct (candidate_grids st !! k0) as [cand|] eqn:Hk0; [|done].
  injection Hgen as ->.
  destruct (state_at_candidate _ _ _ _ _ _ _ Hst Hk0) as (_ & j & _ & Hbuilt).
  apply built_at_inv in Hbuilt as (stj & _ & Hbuild & _).
  unfold build_crossword in Hbuild.
  apply build_prefix_letters in Hbuild; [|apply init_grid_letters].
  specialize (Hbuild r c x Hget Hx). unfold earlier_letters in Hbuild.
  apply elem_of_concat in Hbuild as (w & Hw & Hxw).
  exists w. split; [|done].
  apply sorted_by_len_elem_of.
  apply elem_of_take in Hw as (i & Hi & _). by eapply list_elem_of_lookup_2.
Qed.

Lemma generate_letters_witness :
  ∃ w, w ∈ [str "ab"] ∧ "b"%char ∈ w.
Proof.
  apply (generate_letters [str "ab"] rnd_first_row ab_grid ab_placements 0 1).
  - vm_compute. reflexivity.
  - reflexivity.
  - discriminate.
Defined.

(** ** Words that cannot be placed *)

Lemma build_prefix_skips (i k : nat) (g : grid) (wl : list word) (w : word)
    (draw : direction * nat) (st : grid * gmap nat placement) :
  letters_from [] g → wl !! k = Some w → 1 ≤ k →
  (∀ x, x ∈ w → x ≠ blank ∧ x ∉ earlier_letters wl k) →
  build_prefix i g wl draw = Ok st →
  st.2 !! (k + 1) = None.
Proof.
  intros Hg Hw Hk Hdisj. revert st. induction i as [|i IH]; intros st Hb.
  - unfold build_prefix in Hb.
    apply bind_Ok in Hb as (first & _ & Hb).
    apply bind_Ok in Hb as (st0 & Hst0 & [= <-]).
    apply place_first_start in Hst0 as (r & c & d & -> & _).
    apply lookup_singleton_ne. lia.
  - pose proof Hb as Hb'. rewrite build_prefix_S in Hb'.
    apply bind_Ok in Hb' as (st0 & Hst0 & Hbody).
    destruct (decide (k + 1 = i + 2)) as [Heq|Hne].
    + assert (k = S i) as -> by lia.
      pose proof (build_prefix_letters _ _ _ _ _ Hg Hst0) as Hletters.
      unfold build_body in Hbody.
      apply bind_Ok in Hbody as (w' & Hw'%py_get_Ok & Hbody).
      rewrite lookup_drop in Hw'. change (1 + i) with (S i) in Hw'.
      rewrite Hw in Hw'. injection Hw' as <-.
      apply bind_Ok in Hbody as (p & Hp & Hbody).
      destruct p as [[[[row col] li] d]|].
      * apply find_best_placement_Some in Hp
          as (j & letter & s & _ & Hj & Hget & _).
        apply list_elem_of_lookup_2 in Hj.
        destruct (Hdisj letter Hj) as [Hnb Hnot].
        destruct Hnot. by eapply Hletters.
      * injection Hbody as <-. by apply IH.
    + rewrite (build_body_slot _ _ _ _ _ (k + 1) Hbody Hne). by apply IH.
Qed.

Lemma state_at_no_candidate (wl : list word) (rnd : nat → direction * nat)
    (i : nat) (st : driver) :
  (∀ n j g pl,
     build_crossword (init_grid n) (sorted_by_len wl) (rnd j) = Ok (g, pl) →
     size pl ≠ length (sorted_by_len wl)) →
  state_at i wl rnd = Ok st → candidate_grids st = ∅.
Proof.
  intros Hinc. revert st. induction i as [|i IH]; intros st Hst.
  - unfold state_at in Hst. apply bind_Ok in Hst as (first & _ & [= <-]). done.
  - rewrite state_at_S in Hst. apply bind_Ok in Hst as (st0 & Hst0 & Ha).
    apply attempt_spec in Ha as (g & pl & Hb & Hcase).
    rewrite bool_decide_eq_false_2 in Hcase by by eapply Hinc.
    subst st. specialize (IH _ Hst0). by case_bool_decide.
Qed.

Lemma generate_skipped_word (wl : list word) (rnd : nat → direction * nat)
    (w0 w : word) (k : nat) :
  w0 ∈ wl → w0 ≠ [] →
  sorted_by_len wl !! k = Some w → 1 ≤ k →
  (∀ x, x ∈ w → x ≠ blank ∧ x ∉ earlier_letters (sorted_by_len wl) k) →
  generate wl rnd = Ok None.
Proof.
  intros Hin0 Hne0 Hw Hk Hdisj.
  destruct (state_at_nonempty wl rnd w0 max_iter Hin0 Hne0) as [st Hst].
  unfold generate. rewrite Hst. cbn [mbind result_bind].
  rewrite (state_at_no_candidate wl rnd max_iter st); [| |done].
  - destruct (min_key (∅ : gmap nat candidate)) eqn:Hmin; [|done].
    apply min_key_Some in Hmin as [[c Hc] _]. by rewrite lookup_empty in Hc.
  - intros n j g pl Hb Hsize. unfold build_crossword in Hb.
    pose proof (build_prefix_skips _ k _ _ w _ _ (init_grid_letters n) Hw Hk
                  Hdisj Hb) as Hnone.
    apply (build_prefix_spec n) in Hb as [[_ Hkeys] _];
      [|apply init_grid_square].
    destruct (slots_size (length (sorted_by_len wl)) pl) as [_ Hall].
    { intros k' [[[w' pos] d] Hk']. destruct (Hkeys _ _ _ _ Hk') as [? Hw'].
      apply lookup_lt_Some in Hw'. lia. }
    destruct (Hall Hsize (k + 1)) as [e He].
    { apply lookup_lt_Some in Hw. lia. }
    simpl in Hnone. by rewrite Hnone in He.
Qed.

(** X18: when the list has two or more distinct words without blanks and
    one of them, not empty, shares no letter with any other word, no attempt
    can place every word and [generate] returns no grid. *)
Theorem generate_no_shared_letter (wl : list word)
    (rnd : nat → direction * nat) (w : word) :
  NoDup wl → 2 ≤ length wl →
  (∀ w', w' ∈ wl → blank ∉ w') →
  w ∈ wl → w ≠ [] →
  (∀ w' x, w' ∈ wl → w' ≠ w → x ∈ w → x ∉ w') →
  generate wl rnd = Ok None.
Proof.
  intros Hnd Hlen Hnb Hin Hne Hdisj.
  assert (NoDup (sorted_by_len wl)) as Hnds by by rewrite sorted_by_len_perm.
  pose proof Hin as Hins. apply sorted_by_len_elem_of in Hins.
  apply list_elem_of_lookup in Hins as [k Hk].
  destruct k as [|k].
  - destruct (lookup_lt_is_Some_2 (sorted_by_len wl) 1) as [w1 Hw1];
      [rewrite sorted_by_len_length; lia|].
    assert (w1 ≠ w) as Hw1w.
    { intros ->. by pose proof (NoDup_lookup _ _ _ _ Hnds Hk Hw1). }
    assert (w1 ∈ wl) as Hin1.
    { apply sorted_by_len_elem_of. by eapply list_elem_of_lookup_2. }
    apply (generate_skipped_word wl rnd w w1 1); [done..|].
    intros x Hx. split; [intros ->; by apply (Hnb w1)|].
    unfold earlier_letters.
    destruct (sorted_by_len wl) as [|s0 rest]; [done|]. injection Hk as ->.
    cbn [take concat]. rewrite app_nil_r. intros Hxw.
    by apply (Hdisj w1 x).
  - apply (generate_skipped_word wl rnd w w (S k)); [done..|lia|].
    intros x Hx. split; [intros ->; by apply (Hnb w)|].
    unfold earlier_letters.
    intros (w' & (j & Hj & Hjk)%elem_of_take & Hxw')%elem_of_concat.
    apply (Hdisj w' x); [|  |done..].
    + apply sorted_by_len_elem_of. by eapply list_elem_of_lookup_2.
    + intros ->. pose proof (NoDup_lookup _ _ _ _ Hnds Hk Hj). lia.
Qed.

Lemma generate_no_shared_letter_witness :
  generate [str "xyz"; str "qrs"] rnd_first_row = Ok None.
Proof.
  apply (generate_no_shared_letter _ _ (str "qrs")).
  - apply (bool_decide_unpack _). vm_compute. reflexivity.
  - simpl. lia.
  - intros w' Hw'. apply (bool_decide_unpack _).
    repeat (apply elem_of_cons in Hw' as [->|Hw']; [vm_compute; reflexivity|]).
    by apply elem_of_nil in Hw'.
  - right. by left.
  - discriminate.
  - intros w' x Hw' Hne Hx.
    apply elem_of_cons in Hw' as [->|Hw'].
    + apply (bool_decide_unpack _).
      repeat (apply elem_of_cons in Hx as [->|Hx]; [vm_compute; reflexivity|]).
      by apply elem_of_nil in Hx.
    + apply list_elem_of_singleton in Hw'. done.
Defined.

(** X19: an empty string in a list that also has a non-empty word is never
    placed: [generate] raises nothing and returns no grid. *)
Theorem generate_with_empty_word (wl : list word)
    (rnd : nat → direction * nat) (w : word) :
  [] ∈ wl → w ∈ wl → w ≠ [] → generate wl rnd = Ok None.
Proof.
  intros Hempty Hin Hne.
  pose proof Hempty as Hs. apply sorted_by_len_elem_of in Hs.
  apply list_elem_of_lookup in Hs as [k Hk].
  apply (generate_skipped_word wl rnd w [] k); [done..| |].
  - destruct k; [|lia].
    apply sorted_by_len_head in Hk as [_ Hmax]. specialize (Hmax w Hin).
    destruct w; [done|simpl in Hmax; lia].
  - by intros x ?%elem_of_nil.
Qed.

Lemma generate_with_empty_word_witness :
  generate [[]; str "ab"] rnd_first_row = Ok None.
Proof.
  apply (generate_with_empty_word _ _ (str "ab")).
  - by left.
  - right. by left.
  - discriminate.
Defined.

(** ** print_grid *)

Lemma join_cells_lookup (row : list ascii) (c : nat) :
  join_cells row !! (4 * c) = row !! c.
Proof.
  revert c. induction row as [|x rest IH]; intros c; [done|].
  destruct rest as [|y rest'].
  - destruct c as [|c]; [done|]. simpl. by destruct c.
  - destruct c as [|c]; [done|].
    replace (4 * S c) with (S (S (S (S (4 * c))))) by lia.
    change (join_cells (x :: y :: rest'))
      with (x :: " "%char :: "|"%char :: " "%char :: join_cells (y :: rest')).
    cbn [lookup list_lookup]. apply IH.
Qed.

Lemma join_cells_length (row : list ascii) :
  length (join_cells row) = 4 * length row - 3.
Proof.
  induction row as [|x rest IH]; [done|].
  destruct rest as [|y rest']; [done|].
  change (join_cells (x :: y :: rest'))
    with (x :: " "%char :: "|"%char :: " "%char :: join_cells (y :: rest')).
  cbn [length] in *. lia.
Qed.

(** X20: [print_grid] writes one line per row; on a square grid of size [n]
    each line has [4 * n - 3] characters, and the cell [(r, c)] of the grid
    is the character [4 * c] of line [r]. *)
Theorem print_grid_cells (n : nat) (g : grid) :
  square n g →
  length (print_grid g) = n
  ∧ (∀ line, line ∈ print_grid g → length line = 4 * n - 3)
  ∧ (∀ r c, print_grid g !! r ≫= (λ line, line !! (4 * c)) = cell g r c).
Proof.
  intros [Hlen Hrows]. unfold print_grid. split_and!.
  - by rewrite length_fmap.
  - intros line (row & -> & Hrow)%list_elem_of_fmap.
    rewrite join_cells_length. rewrite Forall_forall in Hrows.
    by rewrite (Hrows _ Hrow).
  - intros r c. unfold cell. rewrite list_lookup_fmap.
    destruct (g !! r) as [row|]; [|done]. simpl. apply join_cells_lookup.
Qed.

Lemma print_grid_cells_witness :
  length (print_grid ab_grid) = 2
  ∧ (∀ line, line ∈ print_grid ab_grid → length line = 4 * 2 - 3)
  ∧ (∀ r c, print_grid ab_grid !! r ≫= (λ line, line !! (4 * c))
            = cell ab_grid r c).
Proof.
  apply print_grid_cells. split; [reflexivity|by repeat constructor].
Defined.

Example print_grid_ab : print_grid ab_grid = [str "a | b"; str "  |  "].
Proof. reflexivity. Qed.

(** ** place_first *)

(** X21: on a non-empty square grid at least as wide as the word,
    [place_first] raises nothing: it lays the word along row
    [draw mod size] from column 0, or down column [draw mod size] from row
    0, records it as the only entry, under slot 1, and the word reads back
    from that start. *)
Theorem place_first_effect (n : nat) (g : grid) (first : word)
    (draw : direction * nat) :
  square n g → 0 < n → length first ≤ n →
  let start :=
    match draw.1 with
    | Horiz => (Z.of_nat (draw.2 mod n), 0%Z)
    | Vert => (0%Z, Z.of_nat (draw.2 mod n))
    end in
  ∃ g',
    place_first g first ∅ draw = Ok (g', {[1 := (first, start, draw.1)]})
    ∧ square n g'
    ∧ read_cells g' draw.1 start (length first) = Ok first.
Proof.
  intros Hsq Hn Hlen start.
  destruct (place_first_is_Ok n g first draw Hsq Hn Hlen) as [[g' pl] Hp].
  exists g'. pose proof Hp as Hp'. unfold place_first, randint0 in Hp'.
  rewrite (proj1 Hsq), bool_decide_eq_false_2 in Hp' by lia.
  cbn [mbind result_bind] in Hp'. subst start.
  destruct draw.1;
    destruct (place_word_spec _ _ _ _ _ _ _ _ _ _ Hp') as (-> & Hr & _ & Hsq');
    (split_and!; [done|by apply Hsq'|by apply reads_read_cells]).
Qed.

Lemma place_first_effect_witness :
  ∃ g',
    place_first (init_grid 2) (str "ab") ∅ (Vert, 5)
      = Ok (g', {[1 := (str "ab", (0%Z, Z.of_nat (5 mod 2)), Vert)]})
    ∧ square 2 g'
    ∧ read_cells g' Vert (0%Z, Z.of_nat (5 mod 2)) (length (str "ab"))
      = Ok (str "ab").
Proof.
  apply (place_first_effect 2 (init_grid 2) (str "ab") (Vert, 5)).
  - apply init_grid_square.
  - lia.
  - simpl. lia.
Defined.

(** ** Writing past the edge *)

Lemma axis_get_Err {A : Type} (l : list A) (i : Z) :
  (Z.of_nat (length l) ≤ i)%Z → axis_get l i = Err OutOfBounds.
Proof.
  intros Hi. unfold axis_get. case_bool_decide; [|done].
  rewrite (proj2 (lookup_ge_None l (Z.to_nat i))); [done|lia].
Qed.

Lemma grid_set_past (n : nat) (g : grid) (r c : Z) (ch : ascii) :
  square n g → (Z.of_nat n ≤ r ∨ (0 ≤ r ∧ Z.of_nat n ≤ c))%Z →
  grid_set g r c ch = Err OutOfBounds.
Proof.
  intros [Hlen Hrows] [Hr|[Hr Hc]]; unfold grid_set.
  - rewrite axis_get_Err; [done|lia].
  - destruct (axis_get g r) as [row|e] eqn:Hrow.
    + apply axis_get_Ok in Hrow as [_ Hrow].
      rewrite Forall_lookup in Hrows. cbn [mbind result_bind].
      rewrite axis_get_Err; [done|]. rewrite (Hrows _ _ Hrow). lia.
    + unfold axis_get in Hrow. case_bool_decide; [|by simplify_eq].
      destruct (g !! Z.to_nat r); by simplify_eq.
Qed.

Lemma write_H_app (g : grid) (w : word) (letter_idx row col : Z)
    (xs ys : list nat) :
  write_H g w letter_idx row col (xs ++ ys)
  = write_H g w letter_idx row col xs
    ≫= λ g', write_H g' w letter_idx row col ys.
Proof.
  revert g. induction xs as [|x xs IH]; intros g; [done|]. simpl.
  destruct (py_get w x) as [wi|]; [|done]. cbn [mbind result_bind].
  destruct (grid_set g row _ wi) as [g1|]; [|done]. apply IH.
Qed.

Lemma write_V_app (g : grid) (w : word) (letter_idx row col : Z)
    (xs ys : list nat) :
  write_V g w letter_idx row col (xs ++ ys)
  = write_V g w letter_idx row col xs
    ≫= λ g', write_V g' w letter_idx row col ys.
Proof.
  revert g. induction xs as [|x xs IH]; intros g; [done|]. simpl.
  destruct (py_get w x) as [wi|]; [|done]. cbn [mbind result_bind].
  destruct (grid_set g _ col wi) as [g1|]; [|done]. apply IH.
Qed.

(** X22: when the span of the word starts on a square grid and runs past
    its last column (or last row), [place_word] raises the grid's index
    error instead of returning a grid. *)
Theorem place_word_past_edge (n : nat) (g : grid) (w : word)
    (letter_idx row col : Z) (d : direction) (pl : gmap nat placement)
    (k : nat) :
  square n g →
  let start := span_start d row col letter_idx in
  (0 ≤ start.1 < Z.of_nat n)%Z → (0 ≤ start.2 < Z.of_nat n)%Z →
  (match d with Horiz => start.2 | Vert => start.1 end
   + Z.of_nat (length w) > Z.of_nat n)%Z →
  place_word g w letter_idx row col d pl k = Err OutOfBounds.
Proof.
  intros Hsq start Hr Hc Hpast. unfold place_word. subst start.
  destruct d; simpl in Hr, Hc, Hpast.
  - set (m := Z.to_nat (Z.of_nat n - (col - letter_idx))).
    assert (length w = m + S (length w - m - 1)) as Hsplit by lia.
    rewrite Hsplit, seq_app, write_H_app. simpl seq.
    destruct (write_H_is_Ok n g w letter_idx row col (seq 0 m) Hsq Hr)
      as [g1 Hg1].
    { apply Forall_forall. intros i Hi%elem_of_seq. lia. }
    rewrite Hg1. cbn [mbind result_bind write_H].
    destruct (lookup_lt_is_Some_2 w m) as [wm Hwm]; [lia|].
    rewrite (proj2 (py_get_Ok _ _ _) Hwm). cbn [mbind result_bind].
    rewrite (grid_set_past n); [done| |right; lia].
    by apply (write_H_spec _ _ _ _ _ _ _ Hg1 (NoDup_seq _ _)).
  - set (m := Z.to_nat (Z.of_nat n - (row - letter_idx))).
    assert (length w = m + S (length w - m - 1)) as Hsplit by lia.
    rewrite Hsplit, seq_app, write_V_app. simpl seq.
    destruct (write_V_is_Ok n g w letter_idx row col (seq 0 m) Hsq Hc)
      as [g1 Hg1].
    { apply Forall_forall. intros i Hi%elem_of_seq. lia. }
    rewrite Hg1. cbn [mbind result_bind write_V].
    destruct (lookup_lt_is_Some_2 w m) as [wm Hwm]; [lia|].
    rewrite (proj2 (py_get_Ok _ _ _) Hwm). cbn [mbind result_bind].
    rewrite (grid_set_past n); [done| |left; lia].
    by apply (write_V_spec _ _ _ _ _ _ _ Hg1 (NoDup_seq _ _)).
Qed.

Lemma place_word_past_edge_witness :
  place_word ab_grid (str "abc") 0 0 0 Horiz ∅ 1 = Err OutOfBounds.
Proof.
  apply (place_word_past_edge 2).
  - split; [reflexivity|by repeat constructor].
  - simpl. lia.
  - simpl. lia.
  - simpl. lia.
Defined.

(** ** Words that hold the blank character *)


(** C10, as stated: for the distinct non-empty words ["abc"] and ["x y"],
    the second word is anchored by its letter 1, the space, on the empty
    cell (2, 1); the three cells of its span are blank before it is placed,
    so it shares no letter with ["abc"], and [generate] returns this grid. *)
Lemma blank_anchor_disconnected :
  NoDup [str "abc"; str "x y"]
  ∧ find_best_placement (str "x y") before_xy.1 [str "abc"; str "x y"]
    = Ok (Some (2%Z, 1%Z, 1%Z, Horiz))
  ∧ grid_get before_xy.1 2 1 = Ok blank
  ∧ build_body [str "abc"; str "x y"] [str "x y"] 0 before_xy = Ok after_xy
  ∧ read_cells before_xy.1 Horiz (2%Z, 0%Z) (length (str "x y"))
    = Ok [blank; blank; blank]
  ∧ build_crossword (init_grid 3) [str "abc"; str "x y"] (Horiz, 0)
    = Ok after_xy
  ∧ generate [str "abc"; str "x y"] rnd_first_row = Ok (Some after_xy).
Proof.
  split_and!; [|vm_compute; reflexivity..].
  apply (bool_decide_unpack _). vm_compute. reflexivity.
Qed.

(** C10, amended: for a word that holds no blank character, a round of the
    builder's loop either leaves the state as it is (the word is skipped) or
    places the word with its letter [j] on a cell [(row, col)] of the word's
    span that is not blank and already holds that letter, a placement the
    validator accepted with at least one overlap. *)
Theorem build_body_letter_overlap (wl words : list word) (i : nat)
    (st st' : grid * gmap nat placement) (w : word) :
  build_body wl words i st = Ok st' →
  words !! i = Some w → blank ∉ w →
  st' = st
  ∨ ∃ row col (j : nat) d letter s,
      place_word st.1 w (Z.of_nat j) row col d st.2 (i + 2) = Ok st'
      ∧ w !! j = Some letter
      ∧ letter ≠ blank
      ∧ grid_get st.1 row col = Ok letter
      ∧ span_cell d (span_start d row col (Z.of_nat j)).1
                    (span_start d row col (Z.of_nat j)).2 j = (row, col)
      ∧ is_valid_placement st.1 w (Z.of_nat j) row col d wl = Ok (Some s)
      ∧ (1 ≤ s)%Z.
Proof.
  intros Hb Hw Hnb.
  destruct (build_body_overlap _ _ _ _ _ Hb)
    as [->|(w' & row & col & j & d & letter & s & Hw' & Hp & Hj & Hget & Hcell
            & Hv & Hs & Hletter)]; [by left|].
  right. rewrite Hw in Hw'. injection Hw' as <-.
  exists row, col, j, d, letter, s. split_and!; try done. by apply Hletter.
Qed.

Lemma build_body_letter_overlap_witness :
  abc_state = (ab_grid, ab_placements)
  ∨ ∃ row col (j : nat) d letter s,
      place_word (ab_grid, ab_placements).1 (str "bc") (Z.of_nat j) row col d
        (ab_grid, ab_placements).2 (0 + 2) = Ok abc_state
      ∧ str "bc" !! j = Some letter
      ∧ letter ≠ blank
      ∧ grid_get (ab_grid, ab_placements).1 row col = Ok letter
      ∧ span_cell d (span_start d row col (Z.of_nat j)).1
                    (span_start d row col (Z.of_nat j)).2 j = (row, col)
      ∧ is_valid_placement (ab_grid, ab_placements).1 (str "bc") (Z.of_nat j)
          row col d [str "ab"; str "bc"] = Ok (Some s)
      ∧ (1 ≤ s)%Z.
Proof.
  apply (build_body_letter_overlap [str "ab"; str "bc"] [str "bc"]).
  - vm_compute. reflexivity.
  - reflexivity.
  - apply (bool_decide_unpack _). vm_compute. reflexivity.
Defined.

(** ** The density of the result *)

Lemma built_at_square (wl : list word) (rnd : nat → direction * nat) (i : nat)
    (g : grid) (pl : gmap nat placement) (b : bool) :
  built_at i wl rnd = Ok ((g, pl), b) → ∃ n, square n g.
Proof.
  intros (sti & _ & Hbuild & _)%built_at_inv.
  unfold build_crossword in Hbuild.
  apply (build_prefix_spec (grid_size sti)) in Hbuild as [[Hsq _] _];
    [|apply init_grid_square].
  by exists (grid_size sti).
Qed.

Lemma count_blanks_blank_cells (n : nat) (g : grid) :
  square n g → count_blanks g = Ok (blank_cells g).
Proof.
  intros Hsq. unfold count_blanks.
  rewrite (proj1 Hsq), (count_rows n g n) by done.
  by rewrite <- (proj1 Hsq), firstn_all.
Qed.

(** C6: the grid [generate] returns has no more blank cells than the grid
    of any complete attempt of the same call, the blank cells of a grid
    being counted by [blank_cells]. *)
Theorem generate_min_blanks (wl : list word) (rnd : nat → direction * nat)
    (g g' : grid) (pl pl' : gmap nat placement) (i : nat) :
  generate wl rnd = Ok (Some (g, pl)) →
  i < max_iter →
  built_at i wl rnd = Ok ((g', pl'), true) →
  blank_cells g ≤ blank_cells g'.
Proof.
  intros Hgen Hi Hbuilt.
  destruct (generate_min_count _ _ _ _ _ _ _ Hgen Hi Hbuilt)
    as (b & b' & Hb & Hb' & Hle).
  destruct (built_at_square _ _ _ _ _ _ Hbuilt) as [n' Hsq'].
  rewrite (count_blanks_blank_cells _ _ Hsq') in Hb'. injection Hb' as <-.
  assert (∃ n, square n g) as [n Hsq].
  { unfold generate in Hgen. apply bind_Ok in Hgen as (st & Hst & Hgen).
    destruct (min_key (candidate_grids st)) as [k0|] eqn:Hmin; [|done].
    destruct (candidate_grids st !! k0) as [cand|] eqn:Hk0; [|done].
    injection Hgen as ->.
    destruct (state_at_candidate _ _ _ _ _ _ _ Hst Hk0) as (_ & j & _ & Hj).
    by eapply built_at_square. }
  rewrite (count_blanks_blank_cells _ _ Hsq) in Hb. injection Hb as <-.
  done.
Qed.

Lemma generate_min_blanks_witness :
  blank_cells abc_dense.1 ≤ blank_cells abc_sparse.1.
Proof.
  apply (generate_min_blanks abc_words rnd_row1_at5
           abc_dense.1 abc_sparse.1 abc_dense.2 abc_sparse.2 6).
  - vm_compute. reflexivity.
  - unfold max_iter. lia.
  - vm_compute. reflexivity.
Defined.

Example density_of_candidates :
  blank_cells abc_dense.1 = 4 ∧ blank_cells abc_sparse.1 = 11.
Proof. split; reflexivity. Qed.
